(** * Bounds checking of jagged embedding lookups

    A shallow embedding of [bounds_check_indices_cpu]
    (fbgemm_gpu/codegen/embedding_bounds_check_host_cpu.cpp) and the
    verification of its specification.

    The routine walks the [T * B] segments of the flat [indices] tensor that
    the [offsets] tensor delimits, and validates every segment and every row
    id against the row count of the owning table, under one of three
    enforcement modes.

    Modelling choices.
    - Tensors are lists of integers addressed by integer positions; an
      accessor's [operator[]] is unchecked in C++, so an access outside the
      buffer is the outcome [Undefined] here.
    - The tensors [indices], [offsets] and [warning] are mutated in place:
      they live in an explicit store that is threaded through the routine.
      [rows_per_table] is only read.
    - [TORCH_CHECK] raises an exception: the outcome [Throw].
    - [LOG(ERROR)] appends a record to a diagnostic sink held in the store.
    - Every access to [offsets] and [indices] is recorded in a trace held in
      the store, so that memory safety can be stated.
    - Integers are in [Z], with the width of the routine's locals written
      out.  [T] and [B] are [int32_t]: lines 28-29 convert an [int64_t] to
      them, which keeps the value modulo [2 ^ 32] ([int32_t] below).  The
      loop counters [t], [b] and [l] are [int], and so are the positions
      [t * B + b] and [t * B + b + 1]: an operation on [int] whose result
      leaves the range of [int] is undefined in C++, the outcome [Undefined]
      ([int_arith] below).  The element types ([index_t], which is [int32_t]
      or [int64_t] by dispatch, and [int64_t] for the row counts and the
      counter) only bound the data: under the three modes the routine
      compares stored values, takes [min] and [max] of them, subtracts the
      two ends of a segment only once
      [0 <= indices_start <= indices_end <= num_indices] is known, and
      increments the counter at most once per segment and once per inspected
      element.  A clamped offset lies between 0 and the larger of the two
      offsets read ([clamp_start_range], [clamp_end_range]), so that the
      assignment to [index_t] on lines 57-61 and 66-70 keeps it.  The
      theorems on whole calls are for tensors whose sizes fit [int]
      ([sizes_fit] below); on such tensors the conversions of lines 28-29
      keep the value and no operation overflows.
    - Dividing by [T = 0] on line 29 is undefined in C++: the outcome
      [Undefined].  The theorems on whole calls are for [T >= 1]. *)

From Stdlib Require Import ZArith Lia Bool.
From stdpp Require Import base tactics option list.

#[local] Open Scope Z_scope.

(** ** Tensors as lists addressed by [Z] *)

(** [size(0)] and [numel()] of a one-dimensional tensor. *)
Definition len (l : list Z) : Z := Z.of_nat (length l).

(** The element at a position, if the position is in the buffer. *)
Definition lookupZ (l : list Z) (pos : Z) : option Z :=
  if pos <? 0 then None else l !! Z.to_nat pos.

(** The buffer with the element at a position overwritten; used on positions
    in the buffer only. *)
Definition insertZ (pos v : Z) (l : list Z) : list Z :=
  <[Z.to_nat pos := v]> l.

(** ** The enforcement modes *)

(** Modelled from the spec: the enum [BoundsCheckMode] is declared in
    fbgemm_gpu/embedding_common.h, which is not among the sources; the
    interface section of the specification gives its encoding,
    0 = FATAL, 1 = WARNING, 2 = IGNORE. *)
Inductive BoundsCheckMode : Type := FATAL | WARNING | IGNORE.

#[global] Instance BoundsCheckMode_eq_dec : EqDecision BoundsCheckMode.
Proof. solve_decision. Defined.

Definition mode_value (m : BoundsCheckMode) : Z :=
  match m with
  | FATAL => 0
  | WARNING => 1
  | IGNORE => 2
  end.

(** [bounds_check_mode == BoundsCheckMode::m], on the integer the caller
    passed ([static_cast] keeps the value). *)
Definition is_mode (bounds_check_mode : Z) (m : BoundsCheckMode) : bool :=
  bounds_check_mode =? mode_value m.

(** ** The store *)

(** The two tensors whose accesses are traced. *)
Inductive buffer : Type := Offsets | Indices.

(** The two messages of the routine, with the values they print. *)
Inductive diagnostic : Type :=
| SegmentOutOfBounds (b t indices_start indices_end num_indices : Z)
| IndexOutOfBounds (b t l idx num_rows : Z).

(** The mutable tensors of a call, the diagnostic sink (latest record first)
    and the trace of accesses (latest first). *)
Record state : Type := mkState {
  offsets : list Z;
  indices : list Z;
  warning : Z;
  log : list diagnostic;
  trace : list (buffer * Z)
}.

Definition record_access (a : buffer * Z) (s : state) : state :=
  mkState (offsets s) (indices s) (warning s) (log s) (a :: trace s).

(** ** Outcomes and the monad of the routine *)

(** A computation returns a value, throws ([TORCH_CHECK]), or is undefined
    (an access outside a buffer, a division by zero). *)
Inductive result (A : Type) : Type :=
| Ok (a : A) (s : state)
| Throw (s : state)
| Undefined.
Arguments Ok {A} a s.
Arguments Throw {A} s.
Arguments Undefined {A}.

Definition M (A : Type) : Type := state -> result A.

#[global] Instance M_ret : MRet M := fun A a s => Ok a s.

#[global] Instance M_bind : MBind M := fun A B k c s =>
  match c s with
  | Ok a s' => k a s'
  | Throw s' => Throw s'
  | Undefined => Undefined
  end.

Definition undefined {A} : M A := fun _ => Undefined.

Definition when (c : bool) (body : M unit) : M unit :=
  if c then body else mret tt.

(** ** Machine integers *)

Definition INT_MIN : Z := - 2 ^ 31.
Definition INT_MAX : Z := 2 ^ 31 - 1.

(** The conversion of an [int64_t] to [int32_t]: the value modulo [2 ^ 32]
    in the range of [int32_t] (what C++20 prescribes, and what the compilers
    did before). *)
Definition int32_t (z : Z) : Z := (z + 2 ^ 31) mod 2 ^ 32 - 2 ^ 31.

(** The result [z] of an operation on [int] operands: signed overflow is
    undefined. *)
Definition int_arith (z : Z) : M Z :=
  if (INT_MIN <=? z) && (z <=? INT_MAX) then mret z else undefined.
Arguments int_arith : simpl never.

(** [for (auto i = 0; i < N; ++i) body]: in every loop of the routine the
    bound is a local that the body does not change, so the number of
    iterations is fixed at entry; [continue] ends the body.  The counter is
    an [int], and [++i] an operation on it. *)
Fixpoint for_from (i : Z) (n : nat) (body : Z -> M unit) : M unit :=
  match n with
  | O => mret tt
  | S n' => body i ;; i' ← int_arith (i + 1); for_from i' n' body
  end.

Definition for_loop (N : Z) (body : Z -> M unit) : M unit :=
  for_from 0 (Z.to_nat N) body.

(** ** Primitive operations *)

Definition offsets_size : M Z := fun s => Ok (len (offsets s)) s.

Definition indices_numel : M Z := fun s => Ok (len (indices s)) s.

Definition read_offsets (pos : Z) : M Z := fun s =>
  match lookupZ (offsets s) pos with
  | Some v => Ok v (record_access (Offsets, pos) s)
  | None => Undefined
  end.

Definition write_offsets (pos v : Z) : M unit := fun s =>
  match lookupZ (offsets s) pos with
  | Some _ =>
      Ok tt (mkState (insertZ pos v (offsets s)) (indices s) (warning s)
               (log s) ((Offsets, pos) :: trace s))
  | None => Undefined
  end.

Definition read_indices (pos : Z) : M Z := fun s =>
  match lookupZ (indices s) pos with
  | Some v => Ok v (record_access (Indices, pos) s)
  | None => Undefined
  end.

Definition write_indices (pos v : Z) : M unit := fun s =>
  match lookupZ (indices s) pos with
  | Some _ =>
      Ok tt (mkState (offsets s) (insertZ pos v (indices s)) (warning s)
               (log s) ((Indices, pos) :: trace s))
  | None => Undefined
  end.

(** [rows_per_table_acc[t]]; the tensor is never written. *)
Definition read_rows (rows_per_table : list Z) (t : Z) : M Z :=
  match lookupZ rows_per_table t with
  | Some v => mret v
  | None => undefined
  end.

(** [warning.zero_()] *)
Definition warning_zero_ : M unit := fun s =>
  Ok tt (mkState (offsets s) (indices s) 0 (log s) (trace s)).

(** [__sync_fetch_and_add(&warning_acc[0], 1)]: returns the value held before
    the increment. *)
Definition sync_fetch_and_add_warning : M Z := fun s =>
  Ok (warning s)
     (mkState (offsets s) (indices s) (warning s + 1) (log s) (trace s)).

Definition LOG_ERROR (d : diagnostic) : M unit := fun s =>
  Ok tt (mkState (offsets s) (indices s) (warning s) (d :: log s) (trace s)).

Definition TORCH_CHECK (c : bool) : M unit := fun s =>
  if c then Ok tt s else Throw s.

(** Integer division; dividing by zero is undefined in C++. *)
Definition divide (a b : Z) : M Z :=
  if b =? 0 then undefined else mret (Z.quot a b).

(** ** The routine *)

(** [std::max(0L, std::min(indices_start, num_indices))] *)
Definition clamp_start (indices_start num_indices : Z) : Z :=
  Z.max 0 (Z.min indices_start num_indices).

(** [std::max(indices_start, std::min(indices_end, num_indices))], on the
    start already clamped. *)
Definition clamp_end (indices_start indices_end num_indices : Z) : Z :=
  Z.max indices_start (Z.min indices_end num_indices).

(** [indices_start < 0 || indices_start > indices_end ||
     indices_end > num_indices] *)
Definition segment_invalid (indices_start indices_end num_indices : Z) : bool :=
  (indices_start <? 0) || (indices_start >? indices_end)
  || (indices_end >? num_indices).

(** [idx < 0 || idx >= num_rows] *)
Definition index_invalid (idx num_rows : Z) : bool :=
  (idx <? 0) || (idx >=? num_rows).

(** Lines 40-73: the two offsets of segment [(t, b)] are read and checked;
    the result is the pair [(indices_start, indices_end)] the element loop
    then uses.  The positions [t * B + b] and [t * B + b + 1] are computed
    in [int]; the routine computes each of them anew at every use, with the
    same operands. *)
Definition check_segment (bounds_check_mode num_indices t B b : Z)
  : M (Z * Z) :=
  tB ← int_arith (t * B);
  pos ← int_arith (tB + b);
  indices_start ← read_offsets pos;
  pos1 ← int_arith (pos + 1);
  indices_end ← read_offsets pos1;
  if is_mode bounds_check_mode FATAL then
    TORCH_CHECK (indices_start >=? 0);;
    TORCH_CHECK (indices_start <=? indices_end);;
    TORCH_CHECK (indices_end <=? num_indices);;
    mret (indices_start, indices_end)
  else if is_mode bounds_check_mode WARNING then
    if segment_invalid indices_start indices_end num_indices then
      old ← sync_fetch_and_add_warning;
      when (old =? 0)
        (LOG_ERROR
           (SegmentOutOfBounds b t indices_start indices_end num_indices));;
      let indices_start' := clamp_start indices_start num_indices in
      let indices_end' := clamp_end indices_start' indices_end num_indices in
      write_offsets pos indices_start';;
      write_offsets pos1 indices_end';;
      mret (indices_start', indices_end')
    else mret (indices_start, indices_end)
  else if is_mode bounds_check_mode IGNORE then
    let indices_start' := clamp_start indices_start num_indices in
    let indices_end' := clamp_end indices_start' indices_end num_indices in
    write_offsets pos indices_start';;
    write_offsets pos1 indices_end';;
    mret (indices_start', indices_end')
  else mret (indices_start, indices_end).

(** Lines 77-99: the body of the element loop. *)
Definition check_index (bounds_check_mode num_rows t b indices_start l : Z)
  : M unit :=
  idx ← read_indices (indices_start + l);
  if idx =? -1 then mret tt
  else if is_mode bounds_check_mode FATAL then
    TORCH_CHECK (idx >=? 0);;
    TORCH_CHECK (idx <? num_rows)
  else if is_mode bounds_check_mode WARNING then
    if index_invalid idx num_rows then
      old ← sync_fetch_and_add_warning;
      when (old =? 0) (LOG_ERROR (IndexOutOfBounds b t l idx num_rows));;
      write_indices (indices_start + l) 0
    else mret tt
  else if is_mode bounds_check_mode IGNORE then
    if index_invalid idx num_rows then write_indices (indices_start + l) 0
    else mret tt
  else mret tt.

(** Lines 40-100: one iteration of the loop over [b]. *)
Definition process_segment (bounds_check_mode num_indices num_rows t B b : Z)
  : M unit :=
  '(indices_start, indices_end) ← check_segment bounds_check_mode num_indices t B b;
  let L := indices_end - indices_start in
  for_loop L (check_index bounds_check_mode num_rows t b indices_start).

(** Lines 17-104: the counter is reset under WARNING, [T] and [B] are derived
    from the shapes and converted to [int32_t], and the segments are
    processed table by table. *)
Definition bounds_check_indices_cpu (rows_per_table : list Z)
    (bounds_check_mode_ : Z) : M unit :=
  let bounds_check_mode := bounds_check_mode_ in
  when (is_mode bounds_check_mode WARNING) warning_zero_;;
  let T := int32_t (len rows_per_table) in
  size0 ← offsets_size;
  quotient ← divide (size0 - 1) T;
  let B := int32_t quotient in
  num_indices ← indices_numel;
  for_loop T (fun t =>
    num_rows ← read_rows rows_per_table t;
    for_loop B (fun b =>
      process_segment bounds_check_mode num_indices num_rows t B b)).

(** A call on the caller's tensors: the store at entry holds them, with an
    empty diagnostic sink and an empty trace. *)
Definition call (rows_per_table indices0 offsets0 : list Z)
    (mode : BoundsCheckMode) (warning0 : Z) : result unit :=
  bounds_check_indices_cpu rows_per_table (mode_value mode)
    (mkState offsets0 indices0 warning0 [] []).

(** * Specifications *)

(** ** Outcomes *)

(** [wp r Q E]: the outcome [r] is a normal return satisfying [Q] or an
    exception satisfying [E]; it is never undefined. *)
Definition wp {A} (r : result A) (Q : A -> state -> Prop) (E : state -> Prop)
  : Prop :=
  match r with
  | Ok a s => Q a s
  | Throw s => E s
  | Undefined => False
  end.

(** ** What a repair does to the buffers *)

(** An entry the routine rejects: not the sentinel, and not a row of the
    table. *)
Definition is_bad (num_rows idx : Z) : bool :=
  negb (idx =? -1) && index_invalid idx num_rows.

(** The entry after the element check of a repairing mode. *)
Definition repair_idx (num_rows idx : Z) : Z :=
  if is_bad num_rows idx then 0 else idx.

(** The indices with the entries at positions [[first, last)] repaired. *)
Definition repair_range (num_rows first last : Z) (l : list Z) : list Z :=
  imap (fun i v =>
          if (first <=? Z.of_nat i) && (Z.of_nat i <? last)
          then repair_idx num_rows v else v) l.

(** The number of rejected entries among the [n] entries from [first]. *)
Fixpoint count_bad (num_rows : Z) (l : list Z) (first : Z) (n : nat) : Z :=
  match n with
  | O => 0
  | S m =>
      count_bad num_rows l first m
      + match lookupZ l (first + Z.of_nat m) with
        | Some v => Z.b2z (is_bad num_rows v)
        | None => 0
        end
  end.

(** ** The counter and the diagnostic sink under WARNING *)

(** The sink holds one record more than at entry exactly when the counter has
    left zero. *)
Definition logged (log0 : list diagnostic) (s : state) : Prop :=
  0 <= warning s
  /\ (warning s = 0 -> log s = log0)
  /\ (0 < warning s -> exists d, log s = d :: log0).

(** A violation counts under WARNING only. *)
Definition counted (p : BoundsCheckMode) (c : Z) : Z :=
  match p with
  | WARNING => c
  | _ => 0
  end.

(** What a step does to the sink: under WARNING it keeps [logged], under the
    other modes it leaves the sink alone. *)
Definition log_post (p : BoundsCheckMode) (s s2 : state) : Prop :=
  match p with
  | WARNING => forall log0, logged log0 s -> logged log0 s2
  | _ => log s2 = log s
  end.

(** WARNING and IGNORE. *)
Definition repairing (p : BoundsCheckMode) : Prop := p <> FATAL.

(** ** The effect of one segment under WARNING and IGNORE *)

(** The element loop over [[first, last)], from store [s] to store [s2]. *)
Definition elements_post (p : BoundsCheckMode) (num_rows first last : Z)
    (s s2 : state) : Prop :=
  offsets s2 = offsets s
  /\ indices s2 = repair_range num_rows first last (indices s)
  /\ warning s2
     = warning s
       + counted p (count_bad num_rows (indices s) first (Z.to_nat (last - first)))
  /\ log_post p s s2
  /\ exists tr, trace s2 = tr ++ trace s
       /\ Forall (fun a => exists i, a = (Indices, i) /\ first <= i < last) tr.

(** The processing of segment [k], read as [[first, last)], from store [s] to
    store [s2]: the clamped ends are in [offsets], the entries of the clamped
    segment are repaired, and the counter has counted the violations met. *)
Definition segment_post (p : BoundsCheckMode) (n num_rows k first last : Z)
    (s s2 : state) : Prop :=
  let first' := clamp_start first n in
  let last' := clamp_end first' last n in
  offsets s2 = insertZ (k + 1) last' (insertZ k first' (offsets s))
  /\ indices s2 = repair_range num_rows first' last' (indices s)
  /\ warning s2
     = warning s
       + counted p (Z.b2z (segment_invalid first last n)
                    + count_bad num_rows (indices s) first'
                        (Z.to_nat (last' - first')))
  /\ log_post p s s2
  /\ exists tr, trace s2 = tr ++ trace s
       /\ Forall (fun a => a = (Offsets, k) \/ a = (Offsets, k + 1)
                           \/ exists i, a = (Indices, i) /\ first' <= i < last')
            tr.

(** ** Checks without repairs *)

(** The tensors and the sink are the same in both stores. *)
Definition same_buffers (s s2 : state) : Prop :=
  offsets s2 = offsets s /\ indices s2 = indices s
  /\ warning s2 = warning s /\ log s2 = log s.

(** Nothing but the trace has changed, and the new accesses satisfy [acc]. *)
Definition frame (acc : buffer * Z -> Prop) (s s2 : state) : Prop :=
  same_buffers s s2
  /\ exists tr, trace s2 = tr ++ trace s /\ Forall acc tr.

(** No entry of [[first, last)] is rejected. *)
Definition elements_ok (num_rows : Z) (ind : list Z) (first last : Z) : Prop :=
  forall i v, first <= i < last -> lookupZ ind i = Some v ->
    is_bad num_rows v = false.

(** Some entry of [[first, last)] is rejected. *)
Definition elements_violation (num_rows : Z) (ind : list Z) (first last : Z)
  : Prop :=
  exists i v, first <= i < last /\ lookupZ ind i = Some v
    /\ is_bad num_rows v = true.

(** The segment lies in the buffer and holds no rejected entry. *)
Definition segment_ok (n num_rows : Z) (ind : list Z) (first last : Z) : Prop :=
  segment_invalid first last n = false
  /\ elements_ok num_rows ind first last.

(** The two kinds of violation: the segment does not lie in the buffer, or it
    does and holds a rejected entry. *)
Definition segment_violation (n num_rows : Z) (ind : list Z) (first last : Z)
  : Prop :=
  segment_invalid first last n = true
  \/ (segment_invalid first last n = false
      /\ elements_violation num_rows ind first last).

(** The accesses the processing of segment [k] may make. *)
Definition segment_access (n k : Z) (a : buffer * Z) : Prop :=
  a = (Offsets, k) \/ a = (Offsets, k + 1)
  \/ exists i, a = (Indices, i) /\ 0 <= i < n.

(** ** The call as a whole *)

(** The store once the counter has been reset (lines 24-26). *)
Definition entry (p : BoundsCheckMode) (s0 : state) : state :=
  match p with
  | WARNING => mkState (offsets s0) (indices s0) 0 (log s0) (trace s0)
  | _ => s0
  end.

(** [B = (len(Offsets) - 1) / T], the batch size of the specification.
    Line 29 computes this quotient and converts it to [int32_t]. *)
Definition batch_size (rows_per_table offsets0 : list Z) : Z :=
  Z.quot (len offsets0 - 1) (len rows_per_table).

(** The sizes of the tensors fit the [int] locals of the routine: [T] and
    every position of [offsets] and of [indices] are at most [INT_MAX]. *)
Definition sizes_fit (rows_per_table offsets0 indices0 : list Z) : Prop :=
  len rows_per_table < 2 ^ 31
  /\ len offsets0 <= 2 ^ 31
  /\ len indices0 < 2 ^ 31.

(** The positions of the two offsets of segment [(t, b)] are computed
    without overflow. *)
Definition position_fits (t B b : Z) : Prop :=
  INT_MIN <= t * B <= INT_MAX
  /\ INT_MIN <= t * B + b <= INT_MAX
  /\ INT_MIN <= t * B + b + 1 <= INT_MAX.

(** The tensors have kept their sizes. *)
Definition same_shape (s0 s : state) : Prop :=
  length (offsets s) = length (offsets s0)
  /\ length (indices s) = length (indices s0).

(** ** The properties of the specification *)

(** Segment [(t, b)] of the tensors is [[first, last)]. *)
Definition segment_of (rows off : list Z) (t b first last : Z) : Prop :=
  0 <= t < len rows /\ 0 <= b < batch_size rows off
  /\ lookupZ off (t * batch_size rows off + b) = Some first
  /\ lookupZ off (t * batch_size rows off + b + 1) = Some last.

(** The input holds a violation of one of the two kinds: a segment that does
    not lie in [indices], or an entry of a segment that does, which is neither
    the sentinel nor a row of the segment's table. *)
Definition has_violation (rows off ind : list Z) : Prop :=
  exists t b first last,
    segment_of rows off t b first last
    /\ ((first < 0 \/ first > last \/ last > len ind)
        \/ (0 <= first <= last /\ last <= len ind
            /\ exists i idx num_rows,
                 first <= i < last /\ lookupZ ind i = Some idx
                 /\ lookupZ rows t = Some num_rows
                 /\ idx <> -1 /\ (idx < 0 \/ idx >= num_rows))).

(** Every segment satisfies
    [0 <= Offsets[t*B+b] <= Offsets[t*B+b+1] <= len(Indices)]. *)
Definition offsets_in_bounds (rows off ind : list Z) : Prop :=
  forall t b,
    0 <= t < len rows -> 0 <= b < batch_size rows off ->
    exists first last,
      lookupZ off (t * batch_size rows off + b) = Some first
      /\ lookupZ off (t * batch_size rows off + b + 1) = Some last
      /\ 0 <= first <= last /\ last <= len ind.

(** Every entry of a segment of table [t] other than the sentinel is a row
    of the table. *)
Definition rows_in_bounds (rows off ind : list Z) : Prop :=
  forall t b first last num_rows i idx,
    segment_of rows off t b first last ->
    lookupZ rows t = Some num_rows ->
    first <= i < last -> lookupZ ind i = Some idx -> idx <> -1 ->
    0 <= idx < num_rows.

(** The safety invariant of the specification. *)
Definition safety_invariant (rows off ind : list Z) : Prop :=
  offsets_in_bounds rows off ind /\ rows_in_bounds rows off ind.

(** Where the routine may touch the buffers. *)
Definition access_in_bounds (rows off ind : list Z) (a : buffer * Z) : Prop :=
  match a with
  | (Offsets, pos) =>
      0 <= pos <= len rows * batch_size rows off /\ pos < len off
  | (Indices, pos) => 0 <= pos < len ind
  end.

(** ** Invariants of a repairing call *)

(** The state of the buffers once the [k] first segments have been
    processed. *)
Record repaired (rows : list Z) (s0 : state) (k : Z) (s : state) : Prop := {
  (* the offsets not yet reached are those of the input *)
  rep_later : forall j,
    k < j \/ k = 0 -> lookupZ (offsets s) j = lookupZ (offsets s0) j;
  (* the offsets reached form a chain within the buffer *)
  rep_chain : 0 < k ->
    exists c, lookupZ (offsets s) k = Some c /\ 0 <= c <= len (indices s0)
      /\ forall j, 0 <= j < k ->
           exists a e, lookupZ (offsets s) j = Some a
             /\ lookupZ (offsets s) (j + 1) = Some e
             /\ 0 <= a <= e /\ e <= c;
  (* the start of the next segment is not below the input's, cut to the
     buffer *)
  rep_reach : 0 < k ->
    forall c f0,
      lookupZ (offsets s) k = Some c -> lookupZ (offsets s0) k = Some f0 ->
      Z.min f0 (len (indices s0)) <= c;
  (* a processed segment lies within the input's segment *)
  rep_within : forall j a e f0 l0 i,
    0 <= j < k ->
    lookupZ (offsets s) j = Some a -> lookupZ (offsets s) (j + 1) = Some e ->
    lookupZ (offsets s0) j = Some f0 -> lookupZ (offsets s0) (j + 1) = Some l0 ->
    a <= i < e -> f0 <= i < l0;
  (* an entry of a processed segment is the input's entry, repaired for
     the segment's table *)
  rep_inside : forall t b a e num_rows i v,
    0 <= t < len rows -> 0 <= b < batch_size rows (offsets s0) ->
    t * batch_size rows (offsets s0) + b < k ->
    lookupZ rows t = Some num_rows ->
    lookupZ (offsets s) (t * batch_size rows (offsets s0) + b) = Some a ->
    lookupZ (offsets s) (t * batch_size rows (offsets s0) + b + 1) = Some e ->
    a <= i < e -> lookupZ (indices s) i = Some v ->
    exists v0, lookupZ (indices s0) i = Some v0 /\ v = repair_idx num_rows v0;
  (* an entry of no processed segment is the input's *)
  rep_outside : forall i,
    (forall j a e, 0 <= j < k ->
       lookupZ (offsets s) j = Some a -> lookupZ (offsets s) (j + 1) = Some e ->
       ~ a <= i < e) ->
    lookupZ (indices s) i = lookupZ (indices s0) i;
  (* the sentinel stays *)
  rep_sentinel : forall i,
    lookupZ (indices s0) i = Some (-1) -> lookupZ (indices s) i = Some (-1)
}.

(** The accesses of a repairing call lie in the buffers. *)
Definition traced (rows : list Z) (s0 s : state) : Prop :=
  exists tr, trace s = tr ++ trace s0
    /\ Forall (access_in_bounds rows (offsets s0) (indices s0)) tr.

(** What the repairs guarantee for the row ids: in a table that has rows they
    are rows of the table; in a table without rows they are [0]. *)
Definition rows_repaired (rows off ind : list Z) : Prop :=
  forall t b first last num_rows i idx,
    segment_of rows off t b first last ->
    lookupZ rows t = Some num_rows ->
    first <= i < last -> lookupZ ind i = Some idx -> idx <> -1 ->
    (0 < num_rows -> 0 <= idx < num_rows) /\ (num_rows <= 0 -> idx = 0).

(** While the counter is zero nothing has been repaired, and the segments
    processed so far have no violation. *)
Definition quiet (rows : list Z) (s0 : state) (k : Z) (s : state) : Prop :=
  warning s = 0 ->
  offsets s = offsets s0 /\ indices s = indices s0
  /\ forall t b first last num_rows,
       segment_of rows (offsets s0) t b first last ->
       t * batch_size rows (offsets s0) + b < k ->
       lookupZ rows t = Some num_rows ->
       segment_ok (len (indices s0)) num_rows (indices s0) first last.

(** ** The repairs as a function of the buffers *)

(** The repair of segment [k], as a function of the two buffers. *)
Definition repair_segment (n num_rows k : Z) (bufs : list Z * list Z)
  : list Z * list Z :=
  let first := default 0 (lookupZ bufs.1 k) in
  let last := default 0 (lookupZ bufs.1 (k + 1)) in
  let first' := clamp_start first n in
  let last' := clamp_end first' last n in
  (insertZ (k + 1) last' (insertZ k first' bufs.1),
   repair_range num_rows first' last' bufs.2).

(** The buffers after the repair of the [m] first segments; segment [k]
    belongs to table [k / B]. *)
Fixpoint repaired_buffers (rows off0 ind0 : list Z) (m : nat)
  : list Z * list Z :=
  match m with
  | O => (off0, ind0)
  | S m' =>
      repair_segment (len ind0)
        (default 0 (lookupZ rows (Z.of_nat m' / batch_size rows off0)))
        (Z.of_nat m') (repaired_buffers rows off0 ind0 m')
  end.

(** ** The violations of an input, and those a sequential pass counts *)

(** The two kinds of violation of the specification: a segment that does not
    lie in a buffer of [n] entries, and an entry that is neither the sentinel
    nor a row of a table of [num_rows] rows. *)
Definition segment_out_of_bounds (n first last : Z) : Prop :=
  first < 0 \/ first > last \/ last > n.

Definition row_out_of_bounds (num_rows idx : Z) : Prop :=
  idx <> -1 /\ (idx < 0 \/ idx >= num_rows).

#[global] Instance segment_out_of_bounds_dec n first last :
  Decision (segment_out_of_bounds n first last).
Proof. unfold segment_out_of_bounds. apply _. Defined.

#[global] Instance row_out_of_bounds_dec num_rows idx :
  Decision (row_out_of_bounds num_rows idx).
Proof. unfold row_out_of_bounds. apply _. Defined.

(** The sum of [f k] over [0 <= k < m]. *)
Fixpoint tally (f : Z -> Z) (m : nat) : Z :=
  match m with
  | O => 0
  | S m' => tally f m' + f (Z.of_nat m')
  end.

Definition one_if (P : Prop) `{!Decision P} : Z := if decide P then 1 else 0.

(** The number of entries of [ind] at the positions [[first, last)] that are
    out of bounds for a table of [num_rows] rows. *)
Definition rows_out_of_bounds (num_rows : Z) (ind : list Z) (first last : Z)
  : Z :=
  tally (fun j => match lookupZ ind (first + j) with
                  | Some idx => one_if (row_out_of_bounds num_rows idx)
                  | None => 0
                  end)
    (Z.to_nat (last - first)).

(** The violations of segment [k] of an input, which belongs to table
    [k / B]: one if the segment does not lie in [indices]; if it does, one per
    entry that is out of bounds for the table. *)
Definition input_violations_at (rows off ind : list Z) (k : Z) : Z :=
  match lookupZ off k, lookupZ off (k + 1),
        lookupZ rows (k / batch_size rows off) with
  | Some first, Some last, Some num_rows =>
      if decide (segment_out_of_bounds (len ind) first last) then 1
      else rows_out_of_bounds num_rows ind first last
  | _, _, _ => 0
  end.

(** The violations of an input, over its [T * B] segments. *)
Definition input_violations (rows off ind : list Z) : Z :=
  tally (input_violations_at rows off ind)
    (Z.to_nat (len rows * batch_size rows off)).

(** What a sequential pass counts at segment [k], from the input [off0],
    [ind0] and the offsets [off'] at return.  The pass reads the end of the
    segment as the input has it.  It reads the start after it has processed
    the segment before: for every segment but the first this is the end it
    has left for the segment before, which is [off'[k]].  The entries it
    inspects are those of the segment as [off'] delimits it at return. *)
Definition counted_at (rows off0 ind0 off' : list Z) (k : Z) : Z :=
  match lookupZ (if k =? 0 then off0 else off') k, lookupZ off0 (k + 1),
        lookupZ off' k, lookupZ off' (k + 1),
        lookupZ rows (k / batch_size rows off0) with
  | Some first, Some last, Some first', Some last', Some num_rows =>
      one_if (segment_out_of_bounds (len ind0) first last)
      + rows_out_of_bounds num_rows ind0 first' last'
  | _, _, _, _, _ => 0
  end.

Definition violations_counted (rows off0 ind0 off' : list Z) : Z :=
  tally (counted_at rows off0 ind0 off')
    (Z.to_nat (len rows * batch_size rows off0)).

(** ** The first violation in processing order *)

(** Segment [(t, b)] lies in [indices] and each of its entries is the
    sentinel or a row of table [t]. *)
Definition segment_valid (rows off ind : list Z) (t b : Z) : Prop :=
  exists first last num_rows,
    lookupZ off (t * batch_size rows off + b) = Some first
    /\ lookupZ off (t * batch_size rows off + b + 1) = Some last
    /\ lookupZ rows t = Some num_rows
    /\ 0 <= first <= last /\ last <= len ind
    /\ forall i idx,
         first <= i < last -> lookupZ ind i = Some idx -> idx <> -1 ->
         0 <= idx < num_rows.

(** Every segment the routine processes before segment [(t, b)] is valid. *)
Definition earlier_valid (rows off ind : list Z) (t b : Z) : Prop :=
  forall t' b',
    0 <= t' < len rows -> 0 <= b' < batch_size rows off ->
    t' * batch_size rows off + b' < t * batch_size rows off + b ->
    segment_valid rows off ind t' b'.

(** The segment [[first, last)] of table [t] holds a violation of one of the
    two kinds. *)
Definition violation_at (rows ind : list Z) (t first last : Z) : Prop :=
  (first < 0 \/ first > last \/ last > len ind)
  \/ (0 <= first <= last /\ last <= len ind
      /\ exists i idx num_rows,
           first <= i < last /\ lookupZ ind i = Some idx
           /\ lookupZ rows t = Some num_rows
           /\ idx <> -1 /\ (idx < 0 \/ idx >= num_rows)).

(** An access at a position of [indices], or at one of the [k + 1] first
    positions of [offsets]. *)
Definition accessed_upto (n k : Z) (a : buffer * Z) : Prop :=
  match a with
  | (Offsets, pos) => 0 <= pos <= k
  | (Indices, pos) => 0 <= pos < n
  end.

(** The diagnostic record describes the first violation of the input in
    processing order: the first segment that is not valid, and, when that
    segment lies in [indices], its first rejected entry. *)
Definition names_first_violation (rows off ind : list Z) (d : diagnostic)
  : Prop :=
  match d with
  | SegmentOutOfBounds b t first last n =>
      n = len ind
      /\ segment_of rows off t b first last
      /\ (first < 0 \/ first > last \/ last > len ind)
      /\ earlier_valid rows off ind t b
  | IndexOutOfBounds b t l idx num_rows =>
      exists first last,
        segment_of rows off t b first last
        /\ 0 <= first <= last /\ last <= len ind
        /\ lookupZ rows t = Some num_rows
        /\ 0 <= l < last - first
        /\ lookupZ ind (first + l) = Some idx
        /\ idx <> -1 /\ (idx < 0 \/ idx >= num_rows)
        /\ (forall l' idx',
              0 <= l' < l -> lookupZ ind (first + l') = Some idx' ->
              idx' = -1 \/ 0 <= idx' < num_rows)
        /\ earlier_valid rows off ind t b
  end.

(** * Verification *)

(** ** Lists addressed by [Z] *)

Lemma lookupZ_Some_range (l : list Z) pos v :
  lookupZ l pos = Some v -> 0 <= pos < len l.
Proof.
  unfold lookupZ, len. destruct (Z.ltb_spec pos 0) as [|Hpos]; [done|].
  intros H%lookup_lt_Some. lia.
Qed.

Lemma lookupZ_in_range (l : list Z) pos :
  0 <= pos < len l -> exists v, lookupZ l pos = Some v.
Proof.
  unfold lookupZ, len. intros [H0 H1].
  destruct (Z.ltb_spec pos 0) as [|_]; [lia|].
  destruct (lookup_lt_is_Some_2 l (Z.to_nat pos)) as [v Hv]; [lia|eauto].
Qed.

Lemma lookupZ_of_nat (l : list Z) (i : nat) : lookupZ l (Z.of_nat i) = l !! i.
Proof.
  unfold lookupZ. destruct (Z.ltb_spec (Z.of_nat i) 0); [lia|].
  by rewrite Nat2Z.id.
Qed.

Lemma lookupZ_ext (l1 l2 : list Z) :
  (forall pos, lookupZ l1 pos = lookupZ l2 pos) -> l1 = l2.
Proof.
  intros H. apply list_eq. intros i. rewrite <- !lookupZ_of_nat. apply H.
Qed.

Lemma len_insertZ pos v (l : list Z) : len (insertZ pos v l) = len l.
Proof. unfold len, insertZ. by rewrite length_insert. Qed.

Lemma length_insertZ pos v (l : list Z) : length (insertZ pos v l) = length l.
Proof. unfold insertZ. by rewrite length_insert. Qed.

Lemma lookupZ_insertZ (l : list Z) pos v q :
  0 <= pos < len l ->
  lookupZ (insertZ pos v l) q = if q =? pos then Some v else lookupZ l q.
Proof.
  unfold lookupZ, insertZ, len. intros [H0 H1].
  destruct (Z.eqb_spec q pos) as [->|Hne].
  - destruct (Z.ltb_spec pos 0); [lia|].
    apply list_lookup_insert_eq. lia.
  - destruct (Z.ltb_spec q 0); [done|].
    apply list_lookup_insert_ne. lia.
Qed.

Lemma insertZ_id (l : list Z) pos v : lookupZ l pos = Some v -> insertZ pos v l = l.
Proof.
  unfold lookupZ, insertZ. destruct (pos <? 0); [done|]. apply list_insert_id.
Qed.

Lemma len_nonneg (l : list Z) : 0 <= len l.
Proof. unfold len. lia. Qed.

Lemma len_eq (l1 l2 : list Z) : length l1 = length l2 -> len l1 = len l2.
Proof. unfold len. by intros ->. Qed.

(** ** Rules for outcomes *)

Lemma wp_bind {A B} (c : M A) (k : A -> M B) s Q E :
  wp (c s) (fun a s' => wp (k a s') Q E) E -> wp ((c ≫= k) s) Q E.
Proof. unfold mbind, M_bind. by destruct (c s). Qed.

Lemma wp_mono {A} (r : result A) (Q Q' : A -> state -> Prop) (E E' : state -> Prop) :
  wp r Q E -> (forall a s, Q a s -> Q' a s) -> (forall s, E s -> E' s) ->
  wp r Q' E'.
Proof. destruct r; simpl; auto. Qed.

Lemma int_arith_fits z s : INT_MIN <= z <= INT_MAX -> int_arith z s = Ok z s.
Proof.
  intros [H0 H1]. unfold int_arith.
  by destruct (Z.leb_spec INT_MIN z), (Z.leb_spec z INT_MAX); try lia.
Qed.

Lemma bind_int_arith {B} z (k : Z -> M B) s :
  INT_MIN <= z <= INT_MAX -> (int_arith z ≫= k) s = k z s.
Proof. intros H. unfold mbind, M_bind. by rewrite int_arith_fits. Qed.

Lemma int_arith_Ok z s a s' :
  int_arith z s = Ok a s' -> a = z /\ s' = s /\ INT_MIN <= z <= INT_MAX.
Proof.
  unfold int_arith.
  destruct (Z.leb_spec INT_MIN z), (Z.leb_spec z INT_MAX); try done.
  intros [= <- <-]. split_and!; (done || lia).
Qed.

Lemma int32_t_fits z : INT_MIN <= z <= INT_MAX -> int32_t z = z.
Proof.
  unfold INT_MIN, INT_MAX, int32_t. intros H.
  rewrite Z.mod_small by lia. lia.
Qed.

Lemma wp_for_from (I : Z -> state -> Prop) E body n : forall i s,
  INT_MIN <= i -> i + Z.of_nat n <= INT_MAX ->
  I i s ->
  (forall j s', i <= j < i + Z.of_nat n -> I j s' ->
     wp (body j s') (fun _ s'' => I (j + 1) s'') E) ->
  wp (for_from i n body s) (fun _ s' => I (i + Z.of_nat n) s') E.
Proof.
  induction n as [|n IH]; intros i s Hmin Hmax Hi Hbody.
  - simpl. by replace (i + Z.of_nat 0) with i by lia.
  - cbn [for_from]. apply wp_bind.
    eapply wp_mono; [apply (Hbody i s); [lia|done] | | done].
    intros a s1 H1. cbn beta in *.
    rewrite bind_int_arith by lia.
    replace (i + Z.of_nat (S n)) with (i + 1 + Z.of_nat n) by lia.
    apply IH; [lia|lia|done|]. intros j s' Hj. apply Hbody. lia.
Qed.

Lemma wp_for_loop (I : Z -> state -> Prop) E body N s :
  N <= INT_MAX ->
  I 0 s ->
  (forall j s', 0 <= j < N -> I j s' ->
     wp (body j s') (fun _ s'' => I (j + 1) s'') E) ->
  wp (for_loop N body s) (fun _ s' => I (Z.max 0 N) s') E.
Proof.
  intros HN H0 Hbody. unfold for_loop.
  replace (Z.max 0 N) with (0 + Z.of_nat (Z.to_nat N)) by lia.
  apply wp_for_from; [unfold INT_MIN; lia|unfold INT_MAX in *; lia|done|].
  intros j s' Hj. apply Hbody. lia.
Qed.

(** A loop that would count beyond [INT_MAX] is undefined: the increment
    after iteration [INT_MAX] overflows. *)
Lemma for_from_overflow body n : forall i s,
  INT_MIN <= i <= INT_MAX -> INT_MAX < i + Z.of_nat n ->
  (forall j s1, exists s2, body j s1 = Ok tt s2) ->
  for_from i n body s = Undefined.
Proof.
  induction n as [|n IH]; intros i s Hi Hn Hbody; [lia|].
  cbn [for_from]. unfold mbind at 1, M_bind at 1.
  destruct (Hbody i s) as [s2 ->].
  destruct (Z.le_gt_cases (i + 1) INT_MAX) as [Hle|Hgt].
  - rewrite bind_int_arith by lia. apply IH; [lia|lia|done].
  - unfold mbind, M_bind, int_arith.
    by destruct (Z.leb_spec INT_MIN (i + 1)), (Z.leb_spec (i + 1) INT_MAX);
      try lia.
Qed.

Lemma for_loop_overflow body N s :
  INT_MAX < N ->
  (forall j s1, exists s2, body j s1 = Ok tt s2) ->
  for_loop N body s = Undefined.
Proof.
  intros HN Hbody. unfold for_loop.
  apply for_from_overflow; [unfold INT_MIN, INT_MAX; lia| |done].
  unfold INT_MAX in *. lia.
Qed.

Lemma wp_Ok {A} (r : result A) Q :
  wp r Q (fun _ => False) -> exists a s, r = Ok a s /\ Q a s.
Proof. destruct r; simpl; [eauto|done|done]. Qed.

(** ** What a repair does to the buffers *)

Lemma length_repair_range num_rows first last l :
  length (repair_range num_rows first last l) = length l.
Proof. unfold repair_range. by rewrite length_imap. Qed.

Lemma lookupZ_repair_range num_rows first last l pos :
  lookupZ (repair_range num_rows first last l) pos
  = (if (first <=? pos) && (pos <? last) then repair_idx num_rows else id)
      <$> lookupZ l pos.
Proof.
  unfold lookupZ, repair_range. destruct (Z.ltb_spec pos 0); [done|].
  rewrite list_lookup_imap. rewrite Z2Nat.id by lia.
  destruct (l !! Z.to_nat pos); simpl; [|done].
  by destruct ((first <=? pos) && (pos <? last)).
Qed.

Lemma repair_range_empty num_rows first l :
  repair_range num_rows first first l = l.
Proof.
  apply lookupZ_ext. intros pos. rewrite lookupZ_repair_range.
  destruct (Z.leb_spec first pos), (Z.ltb_spec pos first); simpl;
    try lia; by destruct (lookupZ l pos).
Qed.

Lemma repair_range_snoc num_rows first m l v :
  0 <= m -> lookupZ l (first + m) = Some v ->
  insertZ (first + m) (repair_idx num_rows v)
    (repair_range num_rows first (first + m) l)
  = repair_range num_rows first (first + m + 1) l.
Proof.
  intros Hm Hv. apply lookupZ_ext. intros pos.
  pose proof (lookupZ_Some_range _ _ _ Hv) as Hr.
  rewrite lookupZ_insertZ
    by (unfold len in *; rewrite length_repair_range; lia).
  rewrite !lookupZ_repair_range.
  destruct (Z.eqb_spec pos (first + m)) as [->|Hne].
  - rewrite Hv. simpl.
    destruct (Z.leb_spec first (first + m)), (Z.ltb_spec (first + m) (first + m + 1));
      simpl; try lia; done.
  - destruct (Z.leb_spec first pos), (Z.ltb_spec pos (first + m)),
      (Z.ltb_spec pos (first + m + 1)); simpl; try lia; done.
Qed.

Lemma count_bad_nonneg num_rows l first n : 0 <= count_bad num_rows l first n.
Proof.
  induction n as [|n IH]; simpl; [lia|].
  destruct (lookupZ l (first + Z.of_nat n)) as [v|]; [|lia].
  destruct (is_bad num_rows v); simpl; lia.
Qed.

Lemma count_bad_ext num_rows l1 l2 first n :
  (forall pos, first <= pos < first + Z.of_nat n ->
     lookupZ l1 pos = lookupZ l2 pos) ->
  count_bad num_rows l1 first n = count_bad num_rows l2 first n.
Proof.
  induction n as [|n IH]; intros H; simpl; [done|].
  rewrite IH by (intros; apply H; lia).
  by rewrite H by lia.
Qed.

Lemma count_bad_zero num_rows l first n :
  count_bad num_rows l first n = 0 <->
  (forall pos v, first <= pos < first + Z.of_nat n -> lookupZ l pos = Some v ->
     is_bad num_rows v = false).
Proof.
  induction n as [|n IH]; simpl.
  - split; [intros; lia|done].
  - pose proof (count_bad_nonneg num_rows l first n) as Hn.
    split.
    + intros H pos v Hpos Hv.
      destruct (Z.eq_dec pos (first + Z.of_nat n)) as [->|Hne].
      * rewrite Hv in H. destruct (is_bad num_rows v); simpl in H; [lia|done].
      * apply (proj1 IH) with pos; [|lia|done].
        destruct (lookupZ l (first + Z.of_nat n)) as [w|]; [|lia].
        destruct (is_bad num_rows w); simpl in H; lia.
    + intros H. rewrite (proj2 IH) by (intros pos v ? ?; apply (H pos v); [lia|done]).
      destruct (lookupZ l (first + Z.of_nat n)) as [w|] eqn:E; [|done].
      rewrite (H (first + Z.of_nat n) w) by (done || lia). done.
Qed.

(** ** The diagnostic sink under WARNING *)

Lemma log_post_refl p s : log_post p s s.
Proof. destruct p; simpl; auto. Qed.

Lemma log_post_trans p s1 s2 s3 :
  log_post p s1 s2 -> log_post p s2 s3 -> log_post p s1 s3.
Proof.
  destruct p; simpl; [congruence| |congruence]. intros H1 H2 log0 H. auto.
Qed.

Lemma log_post_same p s s2 :
  warning s2 = warning s -> log s2 = log s -> log_post p s s2.
Proof.
  intros Hw Hl. destruct p; simpl; [done| |done].
  unfold logged. rewrite Hw, Hl. auto.
Qed.

Lemma log_post_bump d s s2 :
  warning s2 = warning s + 1 ->
  log s2 = (if warning s =? 0 then d :: log s else log s) ->
  log_post WARNING s s2.
Proof.
  intros Hw Hl log0 (H0 & H1 & H2). unfold logged. rewrite Hw, Hl.
  split; [lia|]. split; [lia|]. intros _.
  destruct (Z.eqb_spec (warning s) 0) as [E|E].
  - rewrite (H1 E). eauto.
  - apply H2. lia.
Qed.

(** Running the routine's monadic code on a store. *)
Ltac run :=
  unfold mbind, M_bind, mret, M_ret, when, read_offsets, write_offsets,
    read_indices, write_indices, sync_fetch_and_add_warning, LOG_ERROR,
    TORCH_CHECK, record_access; simpl.

(** *** One element *)

Lemma check_index_repairs p num_rows t b first l s v :
  repairing p ->
  lookupZ (indices s) (first + l) = Some v ->
  exists s2,
    check_index (mode_value p) num_rows t b first l s = Ok tt s2
    /\ offsets s2 = offsets s
    /\ indices s2 = insertZ (first + l) (repair_idx num_rows v) (indices s)
    /\ warning s2 = warning s + counted p (Z.b2z (is_bad num_rows v))
    /\ log_post p s s2
    /\ exists tr, trace s2 = tr ++ trace s
         /\ Forall (fun a => a = (Indices, first + l)) tr.
Proof.
  intros Hp Hv. unfold check_index, repair_idx, is_bad. run. rewrite Hv.
  assert (Hone : exists tr, (Indices, first + l) :: trace s = tr ++ trace s
            /\ Forall (fun a => a = (Indices, first + l)) tr).
  { exists [(Indices, first + l)]. split; [done|]. by constructor. }
  assert (Htwo : exists tr,
            (Indices, first + l) :: (Indices, first + l) :: trace s
            = tr ++ trace s
            /\ Forall (fun a => a = (Indices, first + l)) tr).
  { exists [(Indices, first + l); (Indices, first + l)].
    split; [done|]. by repeat constructor. }
  destruct (Z.eqb_spec v (-1)) as [->|Hne]; simpl.
  { eexists; split; [done|]; simpl. rewrite insertZ_id by done.
    split_and!; [done|done|destruct p; simpl; lia|by apply log_post_same|done]. }
  destruct p; [done| |]; unfold is_mode; simpl.
  - destruct (index_invalid v num_rows); simpl.
    + destruct (Z.eqb_spec (warning s) 0) as [H0|H0]; simpl; rewrite Hv;
        (eexists; split; [done|]; simpl;
         split_and!; [done|done|done| |done]);
        eapply (log_post_bump (IndexOutOfBounds b t l v num_rows)); simpl;
        try done; by destruct (Z.eqb_spec (warning s) 0).
    + eexists; split; [done|]; simpl. rewrite insertZ_id by done.
      split_and!; [done|done|lia|by apply (log_post_same WARNING)|done].
  - destruct (index_invalid v num_rows); simpl.
    + rewrite Hv. eexists; split; [done|]; simpl.
      split_and!; [done|done|lia|done|done].
    + eexists; split; [done|]; simpl. rewrite insertZ_id by done.
      split_and!; [done|done|lia|done|done].
Qed.

(** *** The element loop *)

Lemma count_bad_snoc num_rows ind first l v :
  0 <= l -> lookupZ ind (first + l) = Some v ->
  count_bad num_rows ind first (Z.to_nat (l + 1))
  = count_bad num_rows ind first (Z.to_nat l) + Z.b2z (is_bad num_rows v).
Proof.
  intros Hl Hv. replace (Z.to_nat (l + 1)) with (S (Z.to_nat l)) by lia.
  cbn [count_bad]. rewrite Z2Nat.id by lia. by rewrite Hv.
Qed.

Lemma counted_add p a b : counted p (a + b) = counted p a + counted p b.
Proof. by destruct p. Qed.

Lemma check_elements_repairs p num_rows t b first last s :
  repairing p ->
  len (indices s) <= INT_MAX ->
  0 <= first -> first <= last <= len (indices s) ->
  exists s2,
    for_loop (last - first) (check_index (mode_value p) num_rows t b first) s
    = Ok tt s2
    /\ elements_post p num_rows first last s s2.
Proof.
  intros Hp Hfit Hfirst Hlast.
  cut (wp (for_loop (last - first)
             (check_index (mode_value p) num_rows t b first) s)
          (fun _ s2 => elements_post p num_rows first last s s2)
          (fun _ => False)).
  { intros H. apply wp_Ok in H as ([] & s2 & ? & ?). eauto. }
  eapply wp_mono;
    [apply (wp_for_loop
              (fun l s2 => elements_post p num_rows first (first + l) s s2)
              (fun _ => False))
    | | auto].
  - lia.
  - unfold elements_post. rewrite Z.add_0_r, repair_range_empty.
    replace (first - first) with 0 by lia. simpl.
    split_and!; [done|done|destruct p; simpl; lia|apply log_post_refl|].
    exists []. by split.
  - intros l s1 Hl (Hoff & Hind & Hw & Hlog & tr & Htr & Hall).
    destruct (lookupZ_in_range (indices s) (first + l)) as [v Hv]; [lia|].
    assert (Hv1 : lookupZ (indices s1) (first + l) = Some v).
    { rewrite Hind, lookupZ_repair_range, Hv.
      destruct (Z.ltb_spec (first + l) (first + l)); [lia|].
      by rewrite andb_false_r. }
    destruct (check_index_repairs p num_rows t b first l s1 v Hp Hv1)
      as (s2 & Hrun & Hoff2 & Hind2 & Hw2 & Hlog2 & tr2 & Htr2 & Hall2).
    rewrite Hrun. simpl. unfold elements_post.
    split_and!.
    + congruence.
    + rewrite Hind2, Hind, Z.add_assoc. apply repair_range_snoc; [lia|done].
    + rewrite Hw2, Hw.
      replace (first + l - first) with l by lia.
      replace (first + (l + 1) - first) with (l + 1) by lia.
      rewrite (count_bad_snoc num_rows (indices s) first l v) by (lia || done).
      rewrite counted_add. lia.
    + by apply log_post_trans with s1.
    + exists (tr2 ++ tr). split; [by rewrite Htr2, Htr, app_assoc|].
      apply Forall_app. split.
      * eapply Forall_impl; [exact Hall2|]. intros a ->. exists (first + l).
        split; [done|lia].
      * eapply Forall_impl; [exact Hall|]. intros a (i & -> & Hi).
        exists i. split; [done|lia].
  - intros [] s2. cbn beta.
    by replace (first + Z.max 0 (last - first)) with last by lia.
Qed.

(** *** One segment *)

Lemma clamp_bounds first last n :
  0 <= n ->
  0 <= clamp_start first n
  /\ clamp_start first n <= clamp_end (clamp_start first n) last n
  /\ clamp_end (clamp_start first n) last n <= n.
Proof. unfold clamp_start, clamp_end. lia. Qed.

(** The clamped offsets stay in any range that holds 0 and the offsets
    read, whatever the length of [indices]. *)
Lemma clamp_start_range lo hi first n :
  0 <= n -> lo <= 0 <= hi -> lo <= first <= hi ->
  lo <= clamp_start first n <= hi.
Proof. unfold clamp_start. lia. Qed.

Lemma clamp_end_range lo hi first last n :
  0 <= n -> lo <= 0 <= hi -> lo <= first <= hi -> lo <= last <= hi ->
  lo <= clamp_end (clamp_start first n) last n <= hi.
Proof. unfold clamp_start, clamp_end. lia. Qed.

Lemma segment_invalid_false first last n :
  segment_invalid first last n = false <-> 0 <= first <= last /\ last <= n.
Proof.
  unfold segment_invalid. rewrite !Z.gtb_ltb.
  destruct (Z.ltb_spec first 0), (Z.ltb_spec last first), (Z.ltb_spec n last);
    simpl; split; (done || lia).
Qed.

Lemma clamp_valid first last n :
  segment_invalid first last n = false ->
  clamp_start first n = first /\ clamp_end (clamp_start first n) last n = last.
Proof.
  intros H%segment_invalid_false. unfold clamp_start, clamp_end. lia.
Qed.

(** The routine on positions that fit [int]. *)
Ltac positions_fit H :=
  unfold position_fits in H;
  repeat (rewrite bind_int_arith by (apply H); cbv beta).

Ltac next_position_fits H :=
  rewrite int_arith_fits by (apply H); simpl.

Lemma check_segment_repairs p n t B b s first last :
  repairing p -> position_fits t B b ->
  lookupZ (offsets s) (t * B + b) = Some first ->
  lookupZ (offsets s) (t * B + b + 1) = Some last ->
  exists s2,
    check_segment (mode_value p) n t B b s
    = Ok (clamp_start first n, clamp_end (clamp_start first n) last n) s2
    /\ offsets s2
       = insertZ (t * B + b + 1) (clamp_end (clamp_start first n) last n)
           (insertZ (t * B + b) (clamp_start first n) (offsets s))
    /\ indices s2 = indices s
    /\ warning s2 = warning s + counted p (Z.b2z (segment_invalid first last n))
    /\ log_post p s s2
    /\ exists tr, trace s2 = tr ++ trace s
         /\ Forall (fun a => a = (Offsets, t * B + b)
                             \/ a = (Offsets, t * B + b + 1)) tr.
Proof.
  intros Hp Hfit Hfirst Hlast. unfold check_segment. positions_fit Hfit.
  set (k := t * B + b) in *.
  set (first' := clamp_start first n).
  set (last' := clamp_end first' last n).
  pose proof (lookupZ_Some_range _ _ _ Hfirst) as Hk.
  assert (Hlast' : lookupZ (insertZ k first' (offsets s)) (k + 1) = Some last).
  { rewrite lookupZ_insertZ by done.
    destruct (Z.eqb_spec (k + 1) k); [lia|done]. }
  assert (Hreads : exists tr,
            (Offsets, k + 1) :: (Offsets, k) :: trace s = tr ++ trace s
            /\ Forall (fun a => a = (Offsets, k) \/ a = (Offsets, k + 1)) tr).
  { exists [(Offsets, k + 1); (Offsets, k)]. split; [done|].
    repeat first [apply Forall_nil_2 | apply Forall_cons_2]; auto. }
  assert (Hwrites : exists tr,
            (Offsets, k + 1) :: (Offsets, k) :: (Offsets, k + 1)
              :: (Offsets, k) :: trace s = tr ++ trace s
            /\ Forall (fun a => a = (Offsets, k) \/ a = (Offsets, k + 1)) tr).
  { exists [(Offsets, k + 1); (Offsets, k); (Offsets, k + 1); (Offsets, k)].
    split; [done|].
    repeat first [apply Forall_nil_2 | apply Forall_cons_2]; auto. }
  run. rewrite Hfirst. simpl. next_position_fits Hfit. rewrite Hlast.
  destruct p; [done| |]; unfold is_mode; simpl.
  - destruct (segment_invalid first last n) eqn:Hinv; simpl.
    + fold first'. fold last'.
      destruct (Z.eqb_spec (warning s) 0) as [H0|H0]; simpl;
        rewrite Hfirst; simpl; rewrite Hlast'; simpl;
        (eexists; split; [done|]; simpl;
         split_and!; [done|done|done| |done]);
        eapply (log_post_bump (SegmentOutOfBounds b t first last n)); simpl;
        try done; by destruct (Z.eqb_spec (warning s) 0).
    + destruct (clamp_valid _ _ _ Hinv) as [Hs He].
      subst first' last'. rewrite He, Hs.
      eexists; split; [done|]; simpl.
      rewrite (insertZ_id (offsets s) k first) by done.
      rewrite insertZ_id by done.
      split_and!; [done|done|lia|by apply (log_post_same WARNING)|done].
  - fold first'. fold last'. rewrite Hfirst. simpl. rewrite Hlast'. simpl.
    eexists; split; [done|]; simpl.
    split_and!; [done|done|lia|done|done].
Qed.

Lemma process_segment_repairs p num_rows t B b s first last :
  repairing p -> position_fits t B b -> len (indices s) <= INT_MAX ->
  lookupZ (offsets s) (t * B + b) = Some first ->
  lookupZ (offsets s) (t * B + b + 1) = Some last ->
  exists s2,
    process_segment (mode_value p) (len (indices s)) num_rows t B b s = Ok tt s2
    /\ segment_post p (len (indices s)) num_rows (t * B + b) first last s s2.
Proof.
  intros Hp Hfit Hn Hfirst Hlast.
  destruct (check_segment_repairs p (len (indices s)) t B b s first last
              Hp Hfit Hfirst Hlast)
    as (s1 & Hrun & Hoff & Hind & Hw & Hlog & tr & Htr & Hall).
  pose proof (clamp_bounds first last (len (indices s)) (len_nonneg _))
    as (Hb0 & Hb1 & Hb2).
  destruct (check_elements_repairs p num_rows t b
              (clamp_start first (len (indices s)))
              (clamp_end (clamp_start first (len (indices s))) last
                 (len (indices s))) s1 Hp)
    as (s2 & Hrun2 & Hoff2 & Hind2 & Hw2 & Hlog2 & tr2 & Htr2 & Hall2);
    [by rewrite Hind|done|rewrite Hind; lia|].
  exists s2. split.
  { unfold process_segment, mbind, M_bind. rewrite Hrun. exact Hrun2. }
  unfold segment_post. cbn zeta. split_and!.
  - congruence.
  - congruence.
  - rewrite Hw2, Hw, Hind, counted_add. lia.
  - by apply log_post_trans with s1.
  - exists (tr2 ++ tr). split; [by rewrite Htr2, Htr, app_assoc|].
    apply Forall_app. split.
    + eapply Forall_impl; [exact Hall2|].
      intros a (i & -> & Hi). right; right; eauto.
    + eapply Forall_impl; [exact Hall|]. intros a [->| ->]; auto.
Qed.

(** ** FATAL: checks without repairs *)

Lemma frame_refl acc s : frame acc s s.
Proof. split; [done|]. exists []. by split. Qed.

Lemma frame_trans acc s1 s2 s3 :
  frame acc s1 s2 -> frame acc s2 s3 -> frame acc s1 s3.
Proof.
  intros [(? & ? & ? & ?) (tr & Htr & Hall)] [(? & ? & ? & ?) (tr2 & Htr2 & Hall2)].
  split; [split_and!; congruence|].
  exists (tr2 ++ tr). split; [by rewrite Htr2, Htr, app_assoc|].
  apply Forall_app. by split.
Qed.

Lemma frame_mono (acc acc' : buffer * Z -> Prop) s s2 :
  (forall a, acc a -> acc' a) -> frame acc s s2 -> frame acc' s s2.
Proof.
  intros H [Hb (tr & Htr & Hall)]. split; [done|]. exists tr. split; [done|].
  eapply Forall_impl; [exact Hall|done].
Qed.

Lemma frame_record acc a s : acc a -> frame acc s (record_access a s).
Proof.
  intros Ha. split; [done|]. exists [a]. split; [done|]. by constructor.
Qed.

Lemma is_bad_false num_rows v :
  is_bad num_rows v = false <-> v = -1 \/ 0 <= v < num_rows.
Proof.
  unfold is_bad, index_invalid. rewrite Z.geb_leb.
  destruct (Z.eqb_spec v (-1)), (Z.ltb_spec v 0), (Z.leb_spec num_rows v);
    simpl; split; (done || lia).
Qed.

Lemma is_bad_true num_rows v :
  is_bad num_rows v = true <-> v <> -1 /\ (v < 0 \/ num_rows <= v).
Proof.
  unfold is_bad, index_invalid. rewrite Z.geb_leb.
  destruct (Z.eqb_spec v (-1)), (Z.ltb_spec v 0), (Z.leb_spec num_rows v);
    simpl; split; (done || lia).
Qed.

Lemma check_index_fatal num_rows t b first l s v :
  lookupZ (indices s) (first + l) = Some v ->
  check_index (mode_value FATAL) num_rows t b first l s
  = if is_bad num_rows v
    then Throw (record_access (Indices, first + l) s)
    else Ok tt (record_access (Indices, first + l) s).
Proof.
  intros Hv. unfold check_index, is_bad, index_invalid. run. rewrite Hv.
  destruct (Z.eqb_spec v (-1)) as [->|Hne]; simpl; [done|].
  unfold is_mode; simpl. rewrite !Z.geb_leb.
  destruct (Z.leb_spec 0 v), (Z.ltb_spec v 0); simpl; try lia; [|done].
  by destruct (Z.ltb_spec v num_rows), (Z.leb_spec num_rows v); simpl; try lia.
Qed.

Lemma check_elements_fatal num_rows t b first last s :
  len (indices s) <= INT_MAX ->
  0 <= first -> first <= last <= len (indices s) ->
  wp (for_loop (last - first)
        (check_index (mode_value FATAL) num_rows t b first) s)
     (fun _ s2 =>
        frame (fun a => exists i, a = (Indices, i) /\ first <= i < last) s s2
        /\ elements_ok num_rows (indices s) first last)
     (fun s2 =>
        frame (fun a => exists i, a = (Indices, i) /\ first <= i < last) s s2
        /\ elements_violation num_rows (indices s) first last).
Proof.
  intros Hfit Hfirst Hlast.
  set (acc := fun a : buffer * Z =>
                exists i, a = (Indices, i) /\ first <= i < last).
  eapply wp_mono;
    [apply (wp_for_loop
              (fun l s2 => frame acc s s2
                           /\ elements_ok num_rows (indices s) first (first + l))
              (fun s2 => frame acc s s2
                         /\ elements_violation num_rows (indices s) first last))
    | | auto].
  - lia.
  - split; [apply frame_refl|]. intros i v Hi. lia.
  - intros l s1 Hl [Hfr Hok].
    destruct (lookupZ_in_range (indices s) (first + l)) as [v Hv]; [lia|].
    assert (Hv1 : lookupZ (indices s1) (first + l) = Some v).
    { destruct Hfr as [(_ & -> & _) _]. done. }
    rewrite (check_index_fatal _ _ _ _ _ _ _ Hv1).
    assert (Hfr2 : frame acc s (record_access (Indices, first + l) s1)).
    { apply frame_trans with s1; [done|]. apply frame_record.
      exists (first + l). split; [done|lia]. }
    destruct (is_bad num_rows v) eqn:Hbad; simpl.
    + split; [done|]. exists (first + l), v. split_and!; (lia || done).
    + split; [done|]. intros i w Hi Hw.
      destruct (Z.eq_dec i (first + l)) as [->|Hne]; [congruence|].
      apply (Hok i w); [lia|done].
  - intros [] s2. cbn beta.
    by replace (first + Z.max 0 (last - first)) with last by lia.
Qed.

Lemma check_segment_fatal n t B b s first last :
  position_fits t B b ->
  lookupZ (offsets s) (t * B + b) = Some first ->
  lookupZ (offsets s) (t * B + b + 1) = Some last ->
  check_segment (mode_value FATAL) n t B b s
  = if segment_invalid first last n
    then Throw (record_access (Offsets, t * B + b + 1)
                  (record_access (Offsets, t * B + b) s))
    else Ok (first, last)
           (record_access (Offsets, t * B + b + 1)
              (record_access (Offsets, t * B + b) s)).
Proof.
  intros Hfit Hfirst Hlast. unfold check_segment. positions_fit Hfit.
  pose proof (lookupZ_Some_range _ _ _ Hfirst) as Hk.
  unfold segment_invalid. run.
  rewrite Hfirst. simpl. next_position_fits Hfit. rewrite Hlast.
  unfold is_mode. simpl.
  rewrite !Z.gtb_ltb, Z.geb_leb.
  destruct (Z.leb_spec 0 first), (Z.ltb_spec first 0); simpl; try lia; [|done].
  destruct (Z.leb_spec first last), (Z.ltb_spec last first); simpl; try lia;
    [|done].
  by destruct (Z.leb_spec last n), (Z.ltb_spec n last); simpl; try lia.
Qed.

Lemma process_segment_fatal num_rows t B b s first last :
  position_fits t B b -> len (indices s) <= INT_MAX ->
  lookupZ (offsets s) (t * B + b) = Some first ->
  lookupZ (offsets s) (t * B + b + 1) = Some last ->
  wp (process_segment (mode_value FATAL) (len (indices s)) num_rows t B b s)
     (fun _ s2 =>
        frame (segment_access (len (indices s)) (t * B + b)) s s2
        /\ segment_ok (len (indices s)) num_rows (indices s) first last)
     (fun s2 =>
        frame (segment_access (len (indices s)) (t * B + b)) s s2
        /\ segment_violation (len (indices s)) num_rows (indices s) first last).
Proof.
  intros Hfit Hn Hfirst Hlast.
  set (n := len (indices s)) in *. set (k := t * B + b) in *.
  unfold process_segment. apply wp_bind.
  rewrite (check_segment_fatal n t B b s first last Hfit Hfirst Hlast). fold k.
  set (s1 := record_access (Offsets, k + 1) (record_access (Offsets, k) s)).
  assert (Hfr : frame (segment_access n k) s s1).
  { apply frame_trans with (record_access (Offsets, k) s);
      apply frame_record; unfold segment_access; auto. }
  destruct (segment_invalid first last n) eqn:Hinv; simpl.
  { split; [done|]. by left. }
  apply segment_invalid_false in Hinv as Hrange.
  eapply wp_mono;
    [apply (check_elements_fatal num_rows t b first last s1); simpl;
       (done || lia)| |];
    simpl.
  - intros _ s2 [Hfr2 Hok]. split; [|by split].
    apply frame_trans with s1; [done|].
    eapply frame_mono; [|exact Hfr2].
    intros a (i & -> & Hi). right; right. exists i. split; [done|]. lia.
  - intros s2 [Hfr2 Hbad]. split; [|by right].
    apply frame_trans with s1; [done|].
    eapply frame_mono; [|exact Hfr2].
    intros a (i & -> & Hi). right; right. exists i. split; [done|]. lia.
Qed.

(** ** The whole routine *)

Lemma len_pos (l : list Z) : l <> [] -> 0 < len l.
Proof. unfold len. destruct l; [done|]. simpl. lia. Qed.

Lemma segments_fit a T : 0 < T -> 0 < Z.quot a T -> T * Z.quot a T <= a.
Proof.
  intros HT Hq. pose proof (Z.quot_rem' a T) as Hqr.
  destruct (Z.le_gt_cases 0 a) as [Ha|Ha].
  - pose proof (Z.rem_bound_pos a T Ha HT). lia.
  - pose proof (Z.quot_pos (- a) T ltac:(lia) HT) as Hneg.
    rewrite Z.quot_opp_l in Hneg by lia. lia.
Qed.

Lemma segment_index_inj B t b t' b' :
  0 <= b < B -> 0 <= b' < B -> t' * B + b' = t * B + b -> t' = t /\ b' = b.
Proof. intros Hb Hb' H. assert (t' = t) by nia. subst. lia. Qed.

Lemma segment_index_bound T B t b :
  0 <= t < T -> 0 <= b < B -> 0 <= t * B + b /\ t * B + b + 1 <= T * B.
Proof. intros Ht Hb. nia. Qed.

Lemma batch_size_fits rows off :
  rows <> [] -> len off <= 2 ^ 31 ->
  INT_MIN <= batch_size rows off <= INT_MAX.
Proof.
  intros HT%len_pos Hoff. pose proof (len_nonneg off) as H0.
  unfold batch_size, INT_MIN, INT_MAX.
  set (a := len off - 1). set (T := len rows) in *.
  destruct (Z.le_gt_cases 0 a) as [Ha|Ha].
  - pose proof (Z.quot_pos a T Ha HT) as Hq.
    pose proof (Z.quot_rem' a T) as Hqr.
    pose proof (Z.rem_bound_pos a T Ha HT) as Hr. nia.
  - assert (a = -1) as -> by lia.
    change (-1) with (- (1)). rewrite Z.quot_opp_l by lia.
    destruct (Z.eq_dec T 1) as [->|HT1]; [by vm_compute|].
    rewrite Z.quot_small by lia. lia.
Qed.

(** The positions of the offsets of a segment fit [int]. *)
Lemma segment_position_fits rows off t b :
  rows <> [] -> len off <= 2 ^ 31 ->
  0 <= t < len rows -> 0 <= b < batch_size rows off ->
  position_fits t (batch_size rows off) b.
Proof.
  intros HT%len_pos Hoff Ht Hb.
  pose proof (segment_index_bound _ _ _ _ Ht Hb) as [Hk0 Hk1].
  pose proof (segments_fit (len off - 1) (len rows) HT) as Hfit.
  fold (batch_size rows off) in Hfit.
  unfold position_fits, INT_MIN, INT_MAX. split_and!; (lia || nia).
Qed.

(** Segments are numbered [k = t * B + b]; [I k] holds once the [k] first
    ones have been processed. *)
Lemma bounds_check_wp p rows s0 (I : Z -> state -> Prop) E :
  rows <> [] -> len rows < 2 ^ 31 -> len (offsets s0) <= 2 ^ 31 ->
  I 0 (entry p s0) ->
  (forall t b num_rows s,
     0 <= t < len rows -> 0 <= b < batch_size rows (offsets s0) ->
     lookupZ rows t = Some num_rows ->
     I (t * batch_size rows (offsets s0) + b) s ->
     wp (process_segment (mode_value p) (len (indices s0)) num_rows t
           (batch_size rows (offsets s0)) b s)
        (fun _ s' => I (t * batch_size rows (offsets s0) + b + 1) s') E) ->
  wp (bounds_check_indices_cpu rows (mode_value p) s0)
     (fun _ s' => I (len rows * Z.max 0 (batch_size rows (offsets s0))) s') E.
Proof.
  intros Hrows HT Hoffs H0 Hstep.
  pose proof (batch_size_fits rows (offsets s0) Hrows Hoffs) as HB.
  pose proof (len_pos rows Hrows) as Hpos.
  set (B := batch_size rows (offsets s0)) in *.
  assert (Hloops : forall s1, I 0 s1 ->
    wp (for_loop (len rows) (fun t =>
          num_rows ← read_rows rows t;
          for_loop B (fun b =>
            process_segment (mode_value p) (len (indices s0)) num_rows t B b))
          s1)
       (fun _ s' => I (len rows * Z.max 0 B) s') E).
  { intros s1 Hs1. eapply wp_mono;
      [apply (wp_for_loop (fun t s => I (t * Z.max 0 B) s) E) | |auto].
    - unfold INT_MAX. lia.
    - done.
    - intros t s Ht Hs. apply wp_bind. unfold read_rows.
      destruct (lookupZ_in_range rows t Ht) as [num_rows Hnum]. rewrite Hnum.
      unfold mret, M_ret. cbn [wp].
      eapply wp_mono;
        [apply (wp_for_loop (fun b s => I (t * Z.max 0 B + b) s) E) | |auto].
      + lia.
      + by rewrite Z.add_0_r.
      + intros b s' Hb Hs'.
        replace (t * Z.max 0 B + b) with (t * B + b) in Hs' by lia.
        replace (t * Z.max 0 B + (b + 1)) with (t * B + b + 1) by lia.
        by apply Hstep.
      + intros [] s'. cbn beta.
        by replace (t * Z.max 0 B + Z.max 0 B) with ((t + 1) * Z.max 0 B) by lia.
    - intros [] s'. cbn beta.
      by replace (Z.max 0 (len rows)) with (len rows) by lia. }
  assert (Htail : forall s, offsets s = offsets s0 -> indices s = indices s0 ->
    I 0 s ->
    wp ((size0 ← offsets_size;
         quotient ← divide (size0 - 1) (int32_t (len rows));
         num_indices ← indices_numel;
         for_loop (int32_t (len rows)) (fun t =>
           num_rows ← read_rows rows t;
           for_loop (int32_t quotient) (fun b =>
             process_segment (mode_value p) num_indices num_rows t
               (int32_t quotient) b))) s)
       (fun _ s' => I (len rows * Z.max 0 B) s') E).
  { intros s Hoff Hind Hs.
    rewrite (int32_t_fits (len rows)) by (unfold INT_MIN, INT_MAX; lia).
    unfold mbind at 1, M_bind at 1, offsets_size. cbv beta iota.
    unfold mbind at 1, M_bind at 1, divide.
    destruct (Z.eqb_spec (len rows) 0); [lia|].
    unfold mret at 1, M_ret at 1. cbv beta iota.
    unfold mbind at 1, M_bind at 1, indices_numel. cbv beta iota.
    rewrite Hoff, Hind. fold (batch_size rows (offsets s0)). fold B.
    rewrite (int32_t_fits B) by done.
    by apply Hloops. }
  clear Hloops.
  destruct p.
  - exact (Htail s0 eq_refl eq_refl H0).
  - exact (Htail (entry WARNING s0) eq_refl eq_refl H0).
  - exact (Htail s0 eq_refl eq_refl H0).
Qed.

Lemma entry_offsets p s0 : offsets (entry p s0) = offsets s0.
Proof. by destruct p. Qed.

Lemma entry_indices p s0 : indices (entry p s0) = indices s0.
Proof. by destruct p. Qed.

Lemma entry_log p s0 : log (entry p s0) = log s0.
Proof. by destruct p. Qed.

Lemma entry_trace p s0 : trace (entry p s0) = trace s0.
Proof. by destruct p. Qed.

(** The two offsets of a segment lie in the buffer. *)
Lemma segment_offsets_exist rows s0 s t b :
  rows <> [] -> same_shape s0 s ->
  0 <= t < len rows -> 0 <= b < batch_size rows (offsets s0) ->
  exists first last,
    lookupZ (offsets s) (t * batch_size rows (offsets s0) + b) = Some first
    /\ lookupZ (offsets s) (t * batch_size rows (offsets s0) + b + 1) = Some last.
Proof.
  intros HT%len_pos [Hoff _] Ht Hb.
  set (B := batch_size rows (offsets s0)) in *.
  pose proof (segment_index_bound _ _ _ _ Ht Hb) as [Hk0 Hk1].
  pose proof (segments_fit (len (offsets s0) - 1) (len rows) HT) as Hfit.
  fold (batch_size rows (offsets s0)) in Hfit. fold B in Hfit.
  apply len_eq in Hoff.
  destruct (lookupZ_in_range (offsets s) (t * B + b)) as [first Hfirst]; [lia|].
  destruct (lookupZ_in_range (offsets s) (t * B + b + 1)) as [last Hlast]; [lia|].
  eauto.
Qed.

Lemma segment_post_shape p n num_rows k first last s0 s s2 :
  same_shape s0 s -> segment_post p n num_rows k first last s s2 ->
  same_shape s0 s2.
Proof.
  intros [Hoff Hind] (Hoff2 & Hind2 & _). split.
  - by rewrite Hoff2, !length_insertZ.
  - by rewrite Hind2, length_repair_range.
Qed.

(** The invariant rule for the two repairing modes: every segment is
    processed, and a property that each segment's repair preserves holds at
    return. *)
Lemma call_repairs p rows s0 (I : Z -> state -> Prop) :
  repairing p -> rows <> [] ->
  sizes_fit rows (offsets s0) (indices s0) ->
  I 0 (entry p s0) ->
  (forall t b num_rows first last s s2,
     0 <= t < len rows -> 0 <= b < batch_size rows (offsets s0) ->
     lookupZ rows t = Some num_rows ->
     same_shape s0 s ->
     lookupZ (offsets s) (t * batch_size rows (offsets s0) + b) = Some first ->
     lookupZ (offsets s) (t * batch_size rows (offsets s0) + b + 1) = Some last ->
     I (t * batch_size rows (offsets s0) + b) s ->
     segment_post p (len (indices s0)) num_rows
       (t * batch_size rows (offsets s0) + b) first last s s2 ->
     I (t * batch_size rows (offsets s0) + b + 1) s2) ->
  exists s',
    bounds_check_indices_cpu rows (mode_value p) s0 = Ok tt s'
    /\ I (len rows * Z.max 0 (batch_size rows (offsets s0))) s'
    /\ same_shape s0 s'.
Proof.
  intros Hp HT (HsT & Hso & Hsi) H0 Hstep.
  pose proof (bounds_check_wp p rows s0
                (fun k s => I k s /\ same_shape s0 s) (fun _ => False)
                HT HsT Hso) as H.
  apply wp_Ok in H as ([] & s' & Hrun & HI & Hshape); [eauto| |].
  - split; [done|]. unfold same_shape. by rewrite entry_offsets, entry_indices.
  - intros t b num_rows s Ht Hb Hrows [HI Hshape].
    destruct (segment_offsets_exist rows s0 s t b HT Hshape Ht Hb)
      as (first & last & Hfirst & Hlast).
    destruct (process_segment_repairs p num_rows t
                (batch_size rows (offsets s0)) b s first last Hp)
      as (s2 & Hrun & Hpost); [by apply segment_position_fits| |done|done|].
    { rewrite (len_eq _ _ (proj2 Hshape)). unfold INT_MAX. lia. }
    rewrite (len_eq _ _ (proj2 Hshape)) in Hrun, Hpost.
    rewrite Hrun. simpl. split; [eauto|].
    by eapply segment_post_shape.
Qed.

(** ** The properties of the specification *)

Lemma segment_access_in_bounds rows off ind t b a :
  rows <> [] ->
  0 <= t < len rows -> 0 <= b < batch_size rows off ->
  segment_access (len ind) (t * batch_size rows off + b) a ->
  access_in_bounds rows off ind a.
Proof.
  intros HT%len_pos Ht Hb Ha.
  pose proof (segment_index_bound _ _ _ _ Ht Hb) as [Hk0 Hk1].
  pose proof (segments_fit (len off - 1) (len rows) HT) as Hfit.
  fold (batch_size rows off) in Hfit.
  destruct Ha as [->|[->|(i & -> & Hi)]]; simpl; lia.
Qed.

Lemma segments_ok_safe rows off ind :
  rows <> [] ->
  (forall t b first last num_rows,
     segment_of rows off t b first last -> lookupZ rows t = Some num_rows ->
     segment_ok (len ind) num_rows ind first last) ->
  safety_invariant rows off ind.
Proof.
  intros HT Hok. split.
  - intros t b Ht Hb.
    destruct (segment_offsets_exist rows (mkState off ind 0 [] [])
                (mkState off ind 0 [] []) t b HT) as (first & last & H1 & H2);
      [done|done|done|]. simpl in *.
    destruct (lookupZ_in_range rows t Ht) as [num_rows Hrows].
    destruct (Hok t b first last num_rows) as [Hinv _]; [done|done|].
    apply segment_invalid_false in Hinv. exists first, last. split_and!; (done || lia).
  - intros t b first last num_rows i idx Hseg Hrows Hi Hidx Hne.
    destruct (Hok t b first last num_rows Hseg Hrows) as [_ Hel].
    pose proof (Hel i idx Hi Hidx) as Hgood.
    apply is_bad_false in Hgood. lia.
Qed.

Lemma safe_segments_ok rows off ind t b first last num_rows :
  safety_invariant rows off ind ->
  segment_of rows off t b first last -> lookupZ rows t = Some num_rows ->
  segment_ok (len ind) num_rows ind first last.
Proof.
  intros [Hoff Hrows] Hseg Hnr. pose proof Hseg as (Ht & Hb & H1 & H2).
  destruct (Hoff t b Ht Hb) as (first' & last' & H1' & H2' & Hr).
  assert (first' = first) by congruence. assert (last' = last) by congruence.
  subst. split.
  - apply segment_invalid_false. lia.
  - intros i v Hi Hv. apply is_bad_false.
    destruct (Z.eq_dec v (-1)); [by left|right]. by eapply Hrows.
Qed.

Lemma segment_violation_has rows off ind t b first last num_rows :
  segment_of rows off t b first last -> lookupZ rows t = Some num_rows ->
  segment_violation (len ind) num_rows ind first last ->
  has_violation rows off ind.
Proof.
  intros Hseg Hrows Hv. exists t, b, first, last. split; [done|].
  destruct Hv as [Hinv|[Hinv (i & v & Hi & Hv & Hbad)]].
  - left. destruct (Z.lt_ge_cases first 0); [lia|].
    destruct (Z.lt_ge_cases last first); [lia|].
    destruct (Z.lt_ge_cases (len ind) last); [lia|].
    assert (segment_invalid first last (len ind) = false)
      by (apply segment_invalid_false; lia). congruence.
  - right. apply segment_invalid_false in Hinv. apply is_bad_true in Hbad.
    split_and!; [lia|lia|lia|]. exists i, v, num_rows. split_and!; (done || lia).
Qed.

Lemma has_violation_not_safe rows off ind :
  has_violation rows off ind -> ~ safety_invariant rows off ind.
Proof.
  intros (t & b & first & last & Hseg & Hv) [Hoff Hrows].
  pose proof Hseg as (Ht & Hb & H1 & H2).
  destruct (Hoff t b Ht Hb) as (first' & last' & H1' & H2' & Hr).
  assert (first' = first) by congruence. assert (last' = last) by congruence.
  subst. destruct Hv as [Hv|(_ & _ & i & idx & num_rows & Hi & Hidx & Hnr & Hne & Hbad)];
    [lia|].
  pose proof (Hrows t b first last num_rows i idx Hseg Hnr Hi Hidx Hne). lia.
Qed.

(** *** FATAL *)

Lemma call_fatal rows s0 :
  rows <> [] -> sizes_fit rows (offsets s0) (indices s0) ->
  wp (bounds_check_indices_cpu rows (mode_value FATAL) s0)
     (fun _ s' =>
        frame (access_in_bounds rows (offsets s0) (indices s0)) s0 s'
        /\ safety_invariant rows (offsets s0) (indices s0))
     (fun s' =>
        frame (access_in_bounds rows (offsets s0) (indices s0)) s0 s'
        /\ has_violation rows (offsets s0) (indices s0)).
Proof.
  intros HT (HsT & Hso & Hsi).
  set (acc := access_in_bounds rows (offsets s0) (indices s0)).
  set (B := batch_size rows (offsets s0)).
  eapply wp_mono;
    [apply (bounds_check_wp FATAL rows s0
              (fun k s =>
                 frame acc s0 s
                 /\ forall t b first last num_rows,
                      segment_of rows (offsets s0) t b first last ->
                      t * B + b < k -> lookupZ rows t = Some num_rows ->
                      segment_ok (len (indices s0)) num_rows (indices s0)
                        first last)
              (fun s => frame acc s0 s
                        /\ has_violation rows (offsets s0) (indices s0))
              HT HsT Hso)
    | | auto].
  - split; [apply frame_refl|]. intros t b first last num_rows (Ht & Hb & _) Hk.
    pose proof (segment_index_bound _ _ _ _ Ht Hb). fold B in Hb. lia.
  - fold B. intros t b num_rows s Ht Hb Hrows [Hfr Hok].
    pose proof Hfr as [(Hoff & Hind & _) _].
    destruct (segment_offsets_exist rows s0 s t b HT) as (first & last & H1 & H2);
      [by split; congruence|done|done|]. fold B in H1, H2.
    assert (Hfit : position_fits t B b) by (by apply segment_position_fits).
    assert (Hn : len (indices s) <= INT_MAX)
      by (rewrite Hind; unfold INT_MAX; lia).
    pose proof (process_segment_fatal num_rows t B b s first last Hfit Hn H1 H2)
      as Hwp.
    rewrite Hind in Hwp. rewrite Hoff in H1, H2.
    eapply wp_mono; [exact Hwp| |]; cbn beta.
    + intros _ s2 [Hfr2 Hseg]. split.
      * apply frame_trans with s; [done|]. eapply frame_mono; [|exact Hfr2].
        intros a. by apply segment_access_in_bounds.
      * intros t' b' first' last' num_rows' Hseg' Hk Hrows'.
        destruct (Z.eq_dec (t' * B + b') (t * B + b)) as [Heq|Hne].
        -- destruct Hseg' as (Ht' & Hb' & H1' & H2'). fold B in Hb', H1', H2'.
           apply segment_index_inj in Heq as [-> ->]; [|done|done].
           congruence.
        -- apply (Hok t' b'); [done|lia|done].
    + intros s2 [Hfr2 Hbad]. split.
      * apply frame_trans with s; [done|]. eapply frame_mono; [|exact Hfr2].
        intros a. by apply segment_access_in_bounds.
      * eapply (segment_violation_has rows (offsets s0) (indices s0) t b);
          [|done|done]. unfold segment_of. fold B. split_and!; (done || lia).
  - intros _ s' [Hfr Hok]. split; [done|].
    apply segments_ok_safe; [done|].
    intros t b first last num_rows Hseg Hrows. apply (Hok t b); [done| |done].
    destruct Hseg as (Ht & Hb & _). fold B in Hb.
    pose proof (segment_index_bound _ _ _ _ Ht Hb). lia.
Qed.

(** *** WARNING and IGNORE: what the repairs establish *)

Lemma lookupZ_repair_range_in num_rows first last l pos :
  first <= pos < last ->
  lookupZ (repair_range num_rows first last l) pos
  = repair_idx num_rows <$> lookupZ l pos.
Proof.
  intros H. rewrite lookupZ_repair_range.
  by destruct (Z.leb_spec first pos), (Z.ltb_spec pos last); try lia.
Qed.

Lemma lookupZ_repair_range_out num_rows first last l pos :
  ~ first <= pos < last ->
  lookupZ (repair_range num_rows first last l) pos = lookupZ l pos.
Proof.
  intros H. rewrite lookupZ_repair_range.
  destruct (Z.leb_spec first pos), (Z.ltb_spec pos last); try lia;
    by destruct (lookupZ l pos).
Qed.

Lemma lookupZ_offsets_after (offs : list Z) k first' last' j :
  0 <= k -> k + 1 < len offs ->
  lookupZ (insertZ (k + 1) last' (insertZ k first' offs)) j
  = if j =? k + 1 then Some last'
    else if j =? k then Some first' else lookupZ offs j.
Proof.
  intros Hk0 Hk1.
  rewrite lookupZ_insertZ by (rewrite len_insertZ; lia).
  destruct (Z.eqb_spec j (k + 1)); [done|].
  by rewrite lookupZ_insertZ by lia.
Qed.

Section Repairs.

Variables (rows : list Z) (s0 : state).

Local Abbreviation B := (batch_size rows (offsets s0)).
Local Abbreviation n := (len (indices s0)).

Lemma repaired_entry p : repaired rows s0 0 (entry p s0).
Proof.
  split; rewrite ?entry_offsets, ?entry_indices; try done; try lia.
  intros t b a e num_rows i v Ht Hb Hk.
  pose proof (segment_index_bound _ _ _ _ Ht Hb). lia.
Qed.

(** Nothing has been written from the start of the next segment on. *)
Lemma repaired_ahead k s i :
  repaired rows s0 k s ->
  k = 0 \/ (exists c, lookupZ (offsets s) k = Some c /\ c <= i) ->
  lookupZ (indices s) i = lookupZ (indices s0) i.
Proof.
  intros Hrep H. apply (rep_outside _ _ _ _ Hrep). intros j a e Hj Ha He Hi.
  destruct H as [->|(c & Hc & Hci)]; [lia|].
  destruct (rep_chain _ _ _ _ Hrep) as (c' & Hc' & _ & Hchain); [lia|].
  destruct (Hchain j Hj) as (a' & e' & Ha' & He' & Hr & Hec).
  assert (c' = c) by congruence. assert (e' = e) by congruence.
  assert (a' = a) by congruence. lia.
Qed.

Lemma repaired_step p k s s2 t b num_rows first last :
  0 <= t < len rows -> 0 <= b < B -> k = t * B + b ->
  lookupZ rows t = Some num_rows ->
  lookupZ (offsets s) k = Some first ->
  lookupZ (offsets s) (k + 1) = Some last ->
  repaired rows s0 k s ->
  segment_post p n num_rows k first last s s2 ->
  repaired rows s0 (k + 1) s2.
Proof.
  intros Ht Hb Hkdef Hrows Hfirst Hlast Hrep (Hoff2 & Hind2 & _).
  pose proof (segment_index_bound _ _ _ _ Ht Hb) as [Hk0 _].
  rewrite <- Hkdef in Hk0.
  pose proof (lookupZ_Some_range _ _ _ Hlast) as [_ Hk1].
  pose proof (clamp_bounds first last n (len_nonneg _)) as (Hc0 & Hc1 & Hc2).
  set (first' := clamp_start first n) in *.
  set (last' := clamp_end first' last n) in *.
  assert (Hlk : forall j, lookupZ (offsets s2) j
                          = if j =? k + 1 then Some last'
                            else if j =? k then Some first'
                            else lookupZ (offsets s) j).
  { intros j. rewrite Hoff2. by apply lookupZ_offsets_after. }
  assert (Hsame : 0 < k -> first' = first).
  { intros Hpos. destruct (rep_chain _ _ _ _ Hrep Hpos) as (c & Hc & Hcr & _).
    assert (c = first) by congruence. subst c.
    unfold first', clamp_start. lia. }
  assert (Hlow : forall j, 0 < k -> j <= k ->
                   lookupZ (offsets s2) j = lookupZ (offsets s) j).
  { intros j Hpos Hj. rewrite Hlk.
    destruct (Z.eqb_spec j (k + 1)); [lia|].
    destruct (Z.eqb_spec j k) as [->|]; [|done].
    by rewrite Hsame, Hfirst. }
  assert (Hk2 : lookupZ (offsets s2) k = Some first').
  { rewrite Hlk. destruct (Z.eqb_spec k (k + 1)); [lia|].
    by rewrite Z.eqb_refl. }
  assert (Hk3 : lookupZ (offsets s2) (k + 1) = Some last').
  { rewrite Hlk. by rewrite Z.eqb_refl. }
  assert (Hin : forall i, first' <= i < last' ->
                  lookupZ (indices s2) i
                  = repair_idx num_rows <$> lookupZ (indices s0) i).
  { intros i Hi. rewrite Hind2, lookupZ_repair_range_in by done.
    rewrite (repaired_ahead k s i Hrep); [done|].
    destruct (Z.eq_dec k 0); [by left|right].
    exists first. split; [done|]. rewrite <- Hsame by lia. lia. }
  assert (Hout : forall i, ~ first' <= i < last' ->
                   lookupZ (indices s2) i = lookupZ (indices s) i).
  { intros i Hi. rewrite Hind2. by apply lookupZ_repair_range_out. }
  split.
  - intros j Hj. rewrite Hlk.
    destruct (Z.eqb_spec j (k + 1)); [lia|].
    destruct (Z.eqb_spec j k); [lia|].
    apply (rep_later _ _ _ _ Hrep). lia.
  - intros _. exists last'. split; [done|]. split; [lia|].
    intros j Hj. destruct (Z.eq_dec j k) as [->|Hne].
    + exists first', last'. split_and!; (done || lia).
    + destruct (rep_chain _ _ _ _ Hrep) as (c & Hc & Hcr & Hchain); [lia|].
      destruct (Hchain j) as (a & e & Ha & He & Hr & Hec); [lia|].
      exists a, e. rewrite !Hlow by lia.
      assert (c = first) by congruence. subst c.
      rewrite <- Hsame in Hec by lia.
      split_and!; (done || lia).
  - intros _ c f0 Hc Hf0. rewrite Hk3 in Hc. injection Hc as <-.
    rewrite <- (rep_later _ _ _ _ Hrep (k + 1)) in Hf0 by lia.
    assert (f0 = last) by congruence. subst f0.
    unfold last', clamp_end. lia.
  - intros j a e f0 l0 i Hj Ha He Hf0 Hl0 Hi.
    destruct (Z.eq_dec j k) as [->|Hne].
    + rewrite Hk2 in Ha. rewrite Hk3 in He.
      injection Ha as <-. injection He as <-.
      rewrite <- (rep_later _ _ _ _ Hrep (k + 1)) in Hl0 by lia.
      assert (l0 = last) by congruence. subst l0.
      destruct (Z.eq_dec k 0) as [Hz|Hnz].
      * rewrite <- (rep_later _ _ _ _ Hrep k) in Hf0 by lia.
        assert (f0 = first) by congruence. subst f0.
        unfold last', first', clamp_end, clamp_start in *. lia.
      * pose proof (rep_reach _ _ _ _ Hrep ltac:(lia) first f0 Hfirst Hf0).
        destruct (rep_chain _ _ _ _ Hrep) as (c & Hc & Hcr & _); [lia|].
        assert (c = first) by congruence. subst c.
        rewrite Hsame in * by lia.
        unfold last', clamp_end in *. lia.
    + rewrite !Hlow in * by lia.
      apply (rep_within _ _ _ _ Hrep j a e f0 l0 i); (done || lia).
  - intros t0 b0 a e num_rows0 i v Ht0 Hb0 Hk Hrows0 Ha He Hi Hv.
    destruct (Z.eq_dec (t0 * B + b0) k) as [Heq|Hne].
    + rewrite Hkdef in Heq.
      apply segment_index_inj in Heq as [-> ->]; [|done|done].
      rewrite <- Hkdef in Ha, He.
      assert (a = first') by congruence. assert (e = last') by congruence.
      assert (num_rows0 = num_rows) by congruence. subst.
      rewrite Hin in Hv by done.
      destruct (lookupZ (indices s0) i) as [v0|]; [|done].
      simpl in Hv. exists v0. split; [done|congruence].
    + assert (Hpos : 0 < k).
      { pose proof (segment_index_bound _ _ _ _ Ht0 Hb0). lia. }
      rewrite Hlow in Ha, He by lia.
      destruct (rep_chain _ _ _ _ Hrep Hpos) as (c & Hc & Hcr & Hchain).
      destruct (Hchain (t0 * B + b0)) as (a' & e' & Ha' & He' & Hr & Hec).
      { pose proof (segment_index_bound _ _ _ _ Ht0 Hb0). lia. }
      assert (c = first) by congruence. assert (e' = e) by congruence.
      subst. rewrite <- Hsame in Hec by done.
      rewrite Hout in Hv by lia.
      apply (rep_inside _ _ _ _ Hrep t0 b0 a e); (done || lia).
  - intros i Hi. rewrite Hout by (apply (Hi k first' last'); (done || lia)).
    apply (rep_outside _ _ _ _ Hrep). intros j a e Hj Ha He.
    apply (Hi j a e); [lia| |]; rewrite Hlow; (done || lia).
  - intros i Hi. pose proof (rep_sentinel _ _ _ _ Hrep i Hi) as Hs.
    rewrite Hind2, lookupZ_repair_range, Hs.
    by destruct ((first' <=? i) && (i <? last')).
Qed.

End Repairs.

(** The invariant rule again, with what the repairs establish at hand. *)
Lemma call_repairs_with p rows s0 (X : Z -> state -> Prop) :
  repairing p -> rows <> [] ->
  sizes_fit rows (offsets s0) (indices s0) ->
  X 0 (entry p s0) ->
  (forall t b num_rows first last s s2,
     0 <= t < len rows -> 0 <= b < batch_size rows (offsets s0) ->
     lookupZ rows t = Some num_rows ->
     same_shape s0 s ->
     lookupZ (offsets s) (t * batch_size rows (offsets s0) + b) = Some first ->
     lookupZ (offsets s) (t * batch_size rows (offsets s0) + b + 1) = Some last ->
     repaired rows s0 (t * batch_size rows (offsets s0) + b) s ->
     X (t * batch_size rows (offsets s0) + b) s ->
     segment_post p (len (indices s0)) num_rows
       (t * batch_size rows (offsets s0) + b) first last s s2 ->
     X (t * batch_size rows (offsets s0) + b + 1) s2) ->
  exists s',
    bounds_check_indices_cpu rows (mode_value p) s0 = Ok tt s'
    /\ repaired rows s0 (len rows * Z.max 0 (batch_size rows (offsets s0))) s'
    /\ X (len rows * Z.max 0 (batch_size rows (offsets s0))) s'
    /\ same_shape s0 s'.
Proof.
  intros Hp HT Hfit H0 Hstep.
  destruct (call_repairs p rows s0 (fun k s => repaired rows s0 k s /\ X k s)
              Hp HT Hfit) as (s' & Hrun & [Hrep HX] & Hshape).
  - split; [apply repaired_entry|done].
  - intros t b num_rows first last s s2 Ht Hb Hrows Hshape H1 H2 [Hrep HX] Hpost.
    split; [|by eapply Hstep].
    by eapply (repaired_step rows s0 p _ s s2 t b).
  - eauto.
Qed.

Lemma traced_step p rows s0 s s2 t b num_rows first last :
  rows <> [] ->
  0 <= t < len rows -> 0 <= b < batch_size rows (offsets s0) ->
  traced rows s0 s ->
  segment_post p (len (indices s0)) num_rows
    (t * batch_size rows (offsets s0) + b) first last s s2 ->
  traced rows s0 s2.
Proof.
  intros HT Ht Hb (tr & Htr & Hall) (_ & _ & _ & _ & tr2 & Htr2 & Hall2).
  exists (tr2 ++ tr). split; [by rewrite Htr2, Htr, app_assoc|].
  apply Forall_app. split; [|done].
  eapply Forall_impl; [exact Hall2|]. intros a Ha. cbn beta in Ha.
  apply (segment_access_in_bounds rows (offsets s0) (indices s0) t b);
    [done|done|done|].
  pose proof (clamp_bounds first last (len (indices s0)) (len_nonneg _)).
  destruct Ha as [->|[->|(i & -> & Hi)]]; unfold segment_access; auto.
  right; right. exists i. split; [done|lia].
Qed.

Lemma batch_size_shape rows s0 s :
  same_shape s0 s -> batch_size rows (offsets s) = batch_size rows (offsets s0).
Proof. intros [H _]. unfold batch_size. by rewrite (len_eq _ _ H). Qed.

(** * The properties of the routine *)

(** The tensors of the scenarios fit [int]. *)
Ltac small_sizes := unfold sizes_fit, len; simpl; lia.

(** Without a table the division on line 29 is by zero: the theorems below
    are for at least one table, and for tensors whose sizes fit [int]
    ([sizes_fit]), on which [T] is the number of tables, [B] the batch size
    of the specification, and no counter or position overflows. *)
Example call_without_table : call [] [] [0] IGNORE 0 = Undefined.
Proof. reflexivity. Qed.

(** Beyond these sizes the conversions of lines 28-29 change the value.  With
    one table and [2 ^ 32 + 1] offsets the [int32_t] that line 29 assigns to
    [B] is 0: no segment is inspected, whatever the tensors hold, and the
    call returns under every policy. *)
Lemma oversized_offsets_unchecked num_rows ind0 off0 w0 p :
  len off0 = 2 ^ 32 + 1 ->
  call [num_rows] ind0 off0 p w0 = Ok tt (entry p (mkState off0 ind0 w0 [] [])).
Proof.
  intros Hlen. unfold call, bounds_check_indices_cpu.
  destruct p; unfold mbind, M_bind, offsets_size; simpl; rewrite Hlen;
    reflexivity.
Qed.

Lemma repaired_final_chain rows s0 s' t b :
  same_shape s0 s' ->
  repaired rows s0 (len rows * Z.max 0 (batch_size rows (offsets s0))) s' ->
  0 <= t < len rows -> 0 <= b < batch_size rows (offsets s0) ->
  exists first last,
    lookupZ (offsets s') (t * batch_size rows (offsets s0) + b) = Some first
    /\ lookupZ (offsets s') (t * batch_size rows (offsets s0) + b + 1) = Some last
    /\ 0 <= first <= last /\ last <= len (indices s').
Proof.
  intros Hshape Hrep Ht Hb. set (B := batch_size rows (offsets s0)) in *.
  pose proof (segment_index_bound _ _ _ _ Ht Hb) as [Hk0 Hk1].
  replace (Z.max 0 B) with B in Hrep by lia.
  destruct (rep_chain _ _ _ _ Hrep) as (c & _ & Hc & Hchain); [lia|].
  destruct (Hchain (t * B + b)) as (first & last & H1 & H2 & Hr & Hlc); [lia|].
  exists first, last. rewrite (len_eq _ _ (proj2 Hshape)).
  split_and!; (done || lia).
Qed.

(** C1, as the specification states it, fails on a table without rows:
    the routine repairs the row id 5 of an empty table to 0, which is not a
    row of that table either. *)
Lemma safety_invariant_fails_for_empty_table :
  exists s',
    call [0] [5] [0; 1] IGNORE 0 = Ok tt s'
    /\ indices s' = [0]
    /\ ~ safety_invariant [0] (offsets s') (indices s').
Proof.
  eexists. split; [vm_compute; reflexivity|]. split; [reflexivity|].
  simpl. intros [_ Hrows].
  assert (Hseg : segment_of [0] [0; 1] 0 0 0 1).
  { unfold segment_of. vm_compute. split_and!; (done || congruence). }
  pose proof (Hrows 0 0 0 1 0 0 0 Hseg eq_refl ltac:(lia) eq_refl ltac:(lia)).
  lia.
Qed.

(** C1 (amended): on tensors whose sizes fit [int],
    under WARNING and IGNORE the call returns, every segment
    then satisfies [0 <= Offsets[t*B+b] <= Offsets[t*B+b+1] <= len(Indices)],
    and every non-sentinel entry of a segment of table [t] is a row of the
    table when [RowCounts[t] > 0] (and is 0 when the table has no rows). *)
Theorem repairs_establish_bounds rows ind0 off0 w0 p :
  p <> FATAL -> rows <> [] -> sizes_fit rows off0 ind0 ->
  exists s',
    call rows ind0 off0 p w0 = Ok tt s'
    /\ offsets_in_bounds rows (offsets s') (indices s')
    /\ rows_repaired rows (offsets s') (indices s').
Proof.
  intros Hp HT Hfit. unfold call. set (s0 := mkState off0 ind0 w0 [] []).
  destruct (call_repairs_with p rows s0 (fun _ _ => True) Hp HT Hfit)
    as (s' & Hrun & Hrep & _ & Hshape); [done|done|].
  exists s'. split; [done|].
  pose proof (batch_size_shape rows s0 s' Hshape) as HB.
  split.
  - intros t b Ht Hb. rewrite HB in *.
    by apply (repaired_final_chain rows s0 s' t b).
  - intros t b first last num_rows i idx (Ht & Hb & H1 & H2) Hrows Hi Hidx Hne.
    rewrite HB in *.
    pose proof (segment_index_bound _ _ _ _ Ht Hb) as [Hk0 Hk1].
    destruct (rep_inside _ _ _ _ Hrep t b first last num_rows i idx)
      as (v0 & _ & Hv); try done; [lia|].
    revert Hv. unfold repair_idx, is_bad, index_invalid. rewrite Z.geb_leb.
    destruct (Z.eqb_spec v0 (-1)), (Z.ltb_spec v0 0), (Z.leb_spec num_rows v0);
      simpl; lia.
Qed.

Lemma repairs_establish_bounds_witness :
  WARNING <> FATAL /\ [3] <> [] /\
  sizes_fit [3] [0; 7; 5] [1; 5; -1; 2; 9] /\
  exists s',
    call [3] [1; 5; -1; 2; 9] [0; 7; 5] WARNING 0 = Ok tt s'
    /\ offsets_in_bounds [3] (offsets s') (indices s')
    /\ rows_repaired [3] (offsets s') (indices s').
Proof.
  split; [discriminate|]. split; [discriminate|]. split; [small_sizes|].
  apply (repairs_establish_bounds [3] [1; 5; -1; 2; 9] [0; 7; 5] 0 WARNING);
    [discriminate|discriminate|small_sizes].
Defined.

(** The element loop is only ever handed a segment that lies in the buffer:
    the clamped one under WARNING and IGNORE, the checked one under FATAL. *)
(** A segment check that returns has computed its positions without
    overflow and has read the two offsets in the buffer. *)
Lemma check_segment_Ok mode n t B b s r s2 :
  check_segment mode n t B b s = Ok r s2 ->
  position_fits t B b
  /\ exists first0 last0,
       lookupZ (offsets s) (t * B + b) = Some first0
       /\ lookupZ (offsets s) (t * B + b + 1) = Some last0.
Proof.
  unfold check_segment, position_fits. intros Hrun.
  unfold mbind at 1, M_bind at 1 in Hrun.
  destruct (int_arith (t * B) s) as [a s1| |] eqn:E1; [|done|done].
  apply int_arith_Ok in E1 as (-> & -> & Hr1).
  unfold mbind at 1, M_bind at 1 in Hrun.
  destruct (int_arith (t * B + b) s) as [a s1| |] eqn:E2; [|done|done].
  apply int_arith_Ok in E2 as (-> & -> & Hr2).
  unfold mbind at 1, M_bind at 1, read_offsets at 1 in Hrun.
  destruct (lookupZ (offsets s) (t * B + b)) as [first0|] eqn:H1; [|done].
  unfold mbind at 1, M_bind at 1 in Hrun.
  destruct (int_arith (t * B + b + 1) _) as [a s1| |] eqn:E3; [|done|done].
  apply int_arith_Ok in E3 as (-> & -> & Hr3).
  unfold mbind at 1, M_bind at 1, read_offsets at 1 in Hrun.
  cbn [offsets record_access] in Hrun.
  destruct (lookupZ (offsets s) (t * B + b + 1)) as [last0|] eqn:H2; [|done].
  split; [done|]. eauto.
Qed.

Lemma check_segment_range p n t B b s first last s2 :
  0 <= n ->
  check_segment (mode_value p) n t B b s = Ok (first, last) s2 ->
  0 <= first <= last /\ last <= n.
Proof.
  intros Hn Hrun.
  destruct (check_segment_Ok _ _ _ _ _ _ _ _ Hrun)
    as (Hfit & first0 & last0 & H1 & H2).
  destruct (decide (p = FATAL)) as [->|Hp].
  - rewrite (check_segment_fatal n t B b s first0 last0 Hfit H1 H2) in Hrun.
    destruct (segment_invalid first0 last0 n) eqn:Hinv; [done|].
    injection Hrun as <- <- _. apply segment_invalid_false in Hinv. lia.
  - destruct (check_segment_repairs p n t B b s first0 last0 Hp Hfit H1 H2)
      as (s3 & Hrun3 & _).
    rewrite Hrun3 in Hrun. injection Hrun as <- <- _.
    pose proof (clamp_bounds first0 last0 n Hn). lia.
Qed.

(** C9: on tensors whose sizes fit [int],
    every access of the routine to [offsets] is at a position in
    [[0, T * B]] of the buffer and every access to [indices] at a position in
    [[0, len(Indices))], under every policy, whether the call returns or
    fails: no access outside the buffers is reached.  The element loop runs
    on a segment [[first, last)] with [0 <= first <= last <= len(Indices)]
    only: the clamped segment under WARNING and IGNORE, the segment that has
    passed the checks under FATAL. *)
Theorem accesses_in_bounds rows ind0 off0 w0 p :
  rows <> [] -> sizes_fit rows off0 ind0 ->
  (exists s',
     (call rows ind0 off0 p w0 = Ok tt s'
      \/ (p = FATAL /\ call rows ind0 off0 p w0 = Throw s'))
     /\ Forall (access_in_bounds rows off0 ind0) (trace s'))
  /\ (forall t B b s first last s2,
        check_segment (mode_value p) (len ind0) t B b s = Ok (first, last) s2 ->
        0 <= first <= last /\ last <= len ind0).
Proof.
  intros HT Hfit. split; [|intros t B b s first last s2;
                       apply check_segment_range, len_nonneg].
  unfold call. set (s0 := mkState off0 ind0 w0 [] []).
  destruct (decide (p = FATAL)) as [->|Hp].
  - pose proof (call_fatal rows s0 HT Hfit) as H.
    destruct (bounds_check_indices_cpu rows (mode_value FATAL) s0)
      as [[] s'|s'|]; simpl in H; [| |done];
      destruct H as [[_ (tr & Htr & Hall)] _]; exists s';
      (split; [auto|]); rewrite Htr; simpl; by rewrite app_nil_r.
  - destruct (call_repairs_with p rows s0 (fun _ s => traced rows s0 s) Hp HT Hfit)
      as (s' & Hrun & _ & (tr & Htr & Hall) & _).
    + exists []. split; [by rewrite entry_trace|done].
    + intros t b num_rows first last s s2 Ht Hb _ _ _ _ _ Htr Hpost.
      by eapply traced_step.
    + exists s'. split; [auto|]. rewrite Htr. simpl. by rewrite app_nil_r.
Qed.

Lemma accesses_in_bounds_witness :
  [3] <> [] /\ sizes_fit [3] [0; 7; 5] [1; 5; -1; 2; 9] /\
  (exists s',
     (call [3] [1; 5; -1; 2; 9] [0; 7; 5] FATAL 0 = Ok tt s'
      \/ (FATAL = FATAL
          /\ call [3] [1; 5; -1; 2; 9] [0; 7; 5] FATAL 0 = Throw s'))
     /\ Forall (access_in_bounds [3] [0; 7; 5] [1; 5; -1; 2; 9]) (trace s'))
  /\ (forall t B b s first last s2,
        check_segment (mode_value FATAL) (len [1; 5; -1; 2; 9]) t B b s
        = Ok (first, last) s2 ->
        0 <= first <= last /\ last <= len [1; 5; -1; 2; 9]).
Proof.
  split; [discriminate|]. split; [small_sizes|].
  apply (accesses_in_bounds [3] [1; 5; -1; 2; 9] [0; 7; 5] 0 FATAL);
    [discriminate|small_sizes].
Defined.

(** A position below [T * B] is the number of a segment. *)
Lemma segment_of_index rows off j :
  0 <= j < len rows * batch_size rows off ->
  exists t b,
    0 <= t < len rows /\ 0 <= b < batch_size rows off
    /\ j = t * batch_size rows off + b.
Proof.
  set (B := batch_size rows off). intros Hj.
  pose proof (len_nonneg rows) as HT.
  assert (HB : 0 < B) by nia.
  exists (j / B), (j mod B).
  pose proof (Z.div_mod j B ltac:(lia)) as Hdm.
  pose proof (Z.mod_pos_bound j B HB) as Hmod.
  rewrite (Z.mul_comm B) in Hdm.
  split_and!; try lia.
  - apply Z.div_pos; lia.
  - apply Z.div_lt_upper_bound; lia.
Qed.

(** C5: on tensors whose sizes fit [int],
    an entry equal to the sentinel -1 is skipped by the element check
    without any effect on the buffers, the counter or the diagnostics and
    without failure; after a call, under every policy, the sentinels of the
    input are still in place, and the entries outside all segments (those the
    offsets delimit at return, which the routine has processed, or those of
    the input) are the input's; a FATAL failure is only caused by a violation,
    which a sentinel is not. *)
Theorem sentinel_transparent rows ind0 off0 w0 p :
  rows <> [] -> sizes_fit rows off0 ind0 ->
  (forall mode num_rows t b first l s,
     lookupZ (indices s) (first + l) = Some (-1) ->
     check_index mode num_rows t b first l s
     = Ok tt (record_access (Indices, first + l) s))
  /\ exists s',
       (call rows ind0 off0 p w0 = Ok tt s'
        \/ (p = FATAL /\ call rows ind0 off0 p w0 = Throw s'
            /\ has_violation rows off0 ind0))
       /\ (forall i, lookupZ ind0 i = Some (-1) ->
             lookupZ (indices s') i = Some (-1))
       /\ (forall i,
             (forall t b first last,
                segment_of rows (offsets s') t b first last ->
                ~ first <= i < last) ->
             lookupZ (indices s') i = lookupZ ind0 i)
       /\ (forall i,
             (forall t b first last,
                segment_of rows off0 t b first last -> ~ first <= i < last) ->
             lookupZ (indices s') i = lookupZ ind0 i).
Proof.
  intros HT Hfit. split.
  { intros mode num_rows t b first l s Hs. unfold check_index. run.
    by rewrite Hs. }
  unfold call. set (s0 := mkState off0 ind0 w0 [] []).
  destruct (decide (p = FATAL)) as [->|Hp].
  - pose proof (call_fatal rows s0 HT Hfit) as H.
    destruct (bounds_check_indices_cpu rows (mode_value FATAL) s0)
      as [[] s'|s'|]; simpl in H; [| |done];
      destruct H as [[(_ & Hind & _) _] Hv]; exists s'; rewrite Hind; simpl;
      (split; [auto|done]).
  - destruct (call_repairs_with p rows s0 (fun _ _ => True) Hp HT Hfit)
      as (s' & Hrun & Hrep & _ & Hshape); [done|done|].
    exists s'. split; [auto|]. split; [apply (rep_sentinel _ _ _ _ Hrep)|].
    pose proof (batch_size_shape rows s0 s' Hshape) as HB.
    split.
    + intros i Hi. apply (rep_outside _ _ _ _ Hrep). intros j a e Hj Ha He.
      destruct (segment_of_index rows (offsets s0) j) as (t & b & Ht & Hb & ->);
        [lia|].
      apply (Hi t b). unfold segment_of. rewrite HB. split_and!; (done || lia).
    + intros i Hi. apply (rep_outside _ _ _ _ Hrep). intros j a e Hj Ha He Hin.
      destruct (segment_of_index rows (offsets s0) j) as (t & b & Ht & Hb & ->);
        [lia|].
      destruct (segment_offsets_exist rows s0 s0 t b HT) as (f0 & l0 & H1 & H2);
        [done|done|done|].
      change (offsets s0) with off0 in *.
      apply (Hi t b f0 l0); [unfold segment_of; split_and!; (done || lia)|].
      by apply (rep_within _ _ _ _ Hrep _ a e f0 l0 i Hj).
Qed.

Lemma sentinel_transparent_witness :
  [3] <> [] /\ sizes_fit [3] [0; 2; 5] [1; 5; -1; 2; 9] /\
  (forall mode num_rows t b first l s,
     lookupZ (indices s) (first + l) = Some (-1) ->
     check_index mode num_rows t b first l s
     = Ok tt (record_access (Indices, first + l) s))
  /\ exists s',
       (call [3] [1; 5; -1; 2; 9] [0; 2; 5] WARNING 0 = Ok tt s'
        \/ (WARNING = FATAL
            /\ call [3] [1; 5; -1; 2; 9] [0; 2; 5] WARNING 0 = Throw s'
            /\ has_violation [3] [0; 2; 5] [1; 5; -1; 2; 9]))
       /\ (forall i, lookupZ [1; 5; -1; 2; 9] i = Some (-1) ->
             lookupZ (indices s') i = Some (-1))
       /\ (forall i,
             (forall t b first last,
                segment_of [3] (offsets s') t b first last ->
                ~ first <= i < last) ->
             lookupZ (indices s') i = lookupZ [1; 5; -1; 2; 9] i)
       /\ (forall i,
             (forall t b first last,
                segment_of [3] [0; 2; 5] t b first last ->
                ~ first <= i < last) ->
             lookupZ (indices s') i = lookupZ [1; 5; -1; 2; 9] i).
Proof.
  split; [discriminate|]. split; [small_sizes|].
  apply (sentinel_transparent [3] [1; 5; -1; 2; 9] [0; 2; 5] 0 WARNING);
    [discriminate|small_sizes].
Defined.

Lemma has_violation_rows rows off ind : has_violation rows off ind -> rows <> [].
Proof.
  intros (t & b & first & last & (Ht & _) & _) ->. unfold len in Ht. simpl in Ht.
  lia.
Qed.

(** C2: on tensors whose sizes fit [int],
    when the input holds a violation of either kind, a FATAL call fails;
    it does not return, and it has repaired nothing. *)
Theorem fatal_fails_on_violation rows ind0 off0 w0 :
  sizes_fit rows off0 ind0 -> has_violation rows off0 ind0 ->
  exists s',
    call rows ind0 off0 FATAL w0 = Throw s'
    /\ offsets s' = off0 /\ indices s' = ind0.
Proof.
  intros Hfit Hv. pose proof (has_violation_rows _ _ _ Hv) as HT.
  unfold call. set (s0 := mkState off0 ind0 w0 [] []).
  pose proof (call_fatal rows s0 HT Hfit) as H.
  destruct (bounds_check_indices_cpu rows (mode_value FATAL) s0)
    as [[] s'|s'|]; simpl in H; [| |done].
  - destruct H as [_ Hsafe]. by apply has_violation_not_safe in Hv.
  - destruct H as [[(Hoff & Hind & _) _] _]. by exists s'.
Qed.

(** The violation of the scenario [Offsets = [0; 7; 5]]: the first segment
    ends beyond the five indices. *)
Ltac scenario_has_violation :=
  exists 0, 0, 0, 7; split;
  [ unfold segment_of; vm_compute; split_and!; (done || congruence)
  | left; right; right; vm_compute; done ].

Lemma fatal_fails_on_violation_witness :
  sizes_fit [3] [0; 7; 5] [1; 5; -1; 2; 9] /\
  has_violation [3] [0; 7; 5] [1; 5; -1; 2; 9] /\
  exists s',
    call [3] [1; 5; -1; 2; 9] [0; 7; 5] FATAL 0 = Throw s'
    /\ offsets s' = [0; 7; 5] /\ indices s' = [1; 5; -1; 2; 9].
Proof.
  split; [small_sizes|]. split; [scenario_has_violation|].
  apply (fatal_fails_on_violation [3] [1; 5; -1; 2; 9] [0; 7; 5] 0).
  - small_sizes.
  - scenario_has_violation.
Defined.

(** *** Segments without violation *)

Lemma repair_range_ok num_rows first last ind :
  elements_ok num_rows ind first last ->
  repair_range num_rows first last ind = ind.
Proof.
  intros Hok. apply lookupZ_ext. intros pos. rewrite lookupZ_repair_range.
  destruct (Z.leb_spec first pos), (Z.ltb_spec pos last); simpl;
    try by destruct (lookupZ ind pos).
  destruct (lookupZ ind pos) as [v|] eqn:Hv; [|done]. simpl.
  unfold repair_idx. by rewrite (Hok pos v) by (lia || done).
Qed.

Lemma count_bad_ok num_rows first last ind :
  elements_ok num_rows ind first last ->
  count_bad num_rows ind first (Z.to_nat (last - first)) = 0.
Proof.
  intros Hok. apply count_bad_zero. intros pos v Hpos Hv.
  apply (Hok pos v); [lia|done].
Qed.

(** On a segment without violation the routine changes nothing. *)
Lemma segment_post_ok p n num_rows k first last s s2 :
  lookupZ (offsets s) k = Some first ->
  lookupZ (offsets s) (k + 1) = Some last ->
  segment_ok n num_rows (indices s) first last ->
  segment_post p n num_rows k first last s s2 ->
  offsets s2 = offsets s /\ indices s2 = indices s /\ warning s2 = warning s.
Proof.
  intros H1 H2 [Hinv Hok] (Hoff & Hind & Hw & _).
  destruct (clamp_valid _ _ _ Hinv) as [Hs He].
  rewrite He, Hs in *. split_and!.
  - rewrite Hoff, (insertZ_id (offsets s) k first) by done.
    by apply insertZ_id.
  - rewrite Hind. by apply repair_range_ok.
  - rewrite Hw, Hinv, count_bad_ok by done. destruct p; simpl; lia.
Qed.

(** Under WARNING, a segment that leaves the counter alone has no
    violation. *)
Lemma segment_post_quiet n num_rows k first last s s2 :
  segment_post WARNING n num_rows k first last s s2 ->
  warning s2 <= warning s ->
  segment_ok n num_rows (indices s) first last.
Proof.
  intros (_ & _ & Hw & _) Hle. simpl in Hw.
  pose proof (count_bad_nonneg num_rows (indices s)
                (clamp_start first n)
                (Z.to_nat (clamp_end (clamp_start first n) last n
                           - clamp_start first n))) as Hc.
  destruct (segment_invalid first last n) eqn:Hinv; simpl in Hw; [lia|].
  split; [done|].
  destruct (clamp_valid _ _ _ Hinv) as [Hs He]. rewrite He, Hs in *.
  intros i v Hi Hv.
  apply (proj1 (count_bad_zero num_rows (indices s) first
                  (Z.to_nat (last - first))) ltac:(lia) i v); [lia|done].
Qed.

Lemma segment_post_counts p n num_rows k first last s s2 :
  segment_post p n num_rows k first last s s2 -> warning s <= warning s2.
Proof.
  intros (_ & _ & Hw & _).
  pose proof (count_bad_nonneg num_rows (indices s)
                (clamp_start first n)
                (Z.to_nat (clamp_end (clamp_start first n) last n
                           - clamp_start first n))) as Hc.
  destruct p, (segment_invalid first last n); simpl in Hw; lia.
Qed.

(** C4: on tensors whose sizes fit [int],
    on an input that satisfies the safety invariant the call returns
    under every policy with [offsets] and [indices] as they were; under
    WARNING the counter is 0 at return (and no diagnostic is emitted); under
    FATAL and IGNORE the counter is as it was. *)
Theorem valid_input_unchanged rows ind0 off0 w0 p :
  rows <> [] -> sizes_fit rows off0 ind0 ->
  safety_invariant rows off0 ind0 ->
  exists s',
    call rows ind0 off0 p w0 = Ok tt s'
    /\ offsets s' = off0 /\ indices s' = ind0
    /\ warning s' = (if decide (p = WARNING) then 0 else w0)
    /\ log s' = [].
Proof.
  intros HT Hfit Hsafe. unfold call. set (s0 := mkState off0 ind0 w0 [] []).
  destruct (decide (p = FATAL)) as [->|Hp].
  - pose proof (call_fatal rows s0 HT Hfit) as H.
    destruct (bounds_check_indices_cpu rows (mode_value FATAL) s0)
      as [[] s'|s'|]; simpl in H; [| |done].
    + destruct H as [[(Hoff & Hind & Hw & Hlog) _] _]. by exists s'.
    + destruct H as [_ Hv]. by apply has_violation_not_safe in Hv.
  - destruct (call_repairs_with p rows s0
                (fun _ s => offsets s = off0 /\ indices s = ind0
                            /\ warning s = warning (entry p s0)
                            /\ log s = []) Hp HT Hfit)
      as (s' & Hrun & _ & (Hoff & Hind & Hw & Hlog) & _).
    + by rewrite entry_offsets, entry_indices, entry_log.
    + intros t b num_rows first last s s2 Ht Hb Hrows _ H1 H2 _
        (Hoff & Hind & Hw & Hlog) Hpost.
      assert (Hok : segment_ok (len (indices s0)) num_rows (indices s)
                      first last).
      { rewrite Hind. apply (safe_segments_ok rows off0 ind0 t b); [done| |done].
        rewrite Hoff in H1, H2. change (offsets s0) with off0 in *.
        unfold segment_of. split_and!; (done || lia). }
      destruct (segment_post_ok _ _ _ _ _ _ _ _ H1 H2 Hok Hpost)
        as (Hoff2 & Hind2 & Hw2).
      split_and!; try congruence.
      destruct Hpost as (_ & _ & _ & Hlp & _).
      destruct p; [done| |simpl in Hlp; congruence].
      simpl in Hlp, Hw. destruct (Hlp (log s)) as (_ & Hl0 & _).
      { unfold logged. rewrite Hw. split_and!; (done || lia). }
      rewrite Hl0 by congruence. done.
    + exists s'. split_and!; try done. rewrite Hw.
      by destruct p.
Qed.

(** An input that satisfies the safety invariant: one table of three rows,
    two segments [[0, 2)] and [[2, 5)], one sentinel. *)
Ltac scenario_safe :=
  assert (HB : batch_size [3] [0; 2; 5] = 2) by reflexivity;
  split;
  [ intros t b Ht Hb; rewrite HB in *; unfold len in Ht; simpl in Ht;
    assert (t = 0) as -> by lia;
    assert (b = 0 \/ b = 1) as [-> | ->] by lia;
    [ exists 0, 2 | exists 2, 5 ];
    vm_compute; split_and!; (done || congruence)
  | intros t b first last num_rows i idx (Ht & Hb & H1 & H2) Hrows Hi Hidx Hne;
    rewrite HB in *; unfold len in Ht; simpl in Ht;
    assert (t = 0) as -> by lia;
    assert (num_rows = 3) as -> by (vm_compute in Hrows; congruence);
    assert (b = 0 \/ b = 1) as [-> | ->] by lia;
    [ assert (first = 0) as -> by (vm_compute in H1; congruence);
      assert (last = 2) as -> by (vm_compute in H2; congruence);
      assert (i = 0 \/ i = 1) as [-> | ->] by lia
    | assert (first = 2) as -> by (vm_compute in H1; congruence);
      assert (last = 5) as -> by (vm_compute in H2; congruence);
      assert (i = 2 \/ i = 3 \/ i = 4) as [-> | [-> | ->]] by lia ];
    vm_compute in Hidx; injection Hidx as <-; lia ].

Lemma valid_input_unchanged_witness :
  [3] <> [] /\ sizes_fit [3] [0; 2; 5] [1; 2; -1; 2; 0] /\
  safety_invariant [3] [0; 2; 5] [1; 2; -1; 2; 0] /\
  exists s',
    call [3] [1; 2; -1; 2; 0] [0; 2; 5] WARNING 7 = Ok tt s'
    /\ offsets s' = [0; 2; 5] /\ indices s' = [1; 2; -1; 2; 0]
    /\ warning s' = (if decide (WARNING = WARNING) then 0 else 7)
    /\ log s' = [].
Proof.
  split; [discriminate|]. split; [small_sizes|]. split; [scenario_safe|].
  apply (valid_input_unchanged [3] [1; 2; -1; 2; 0] [0; 2; 5] 7 WARNING).
  - discriminate.
  - small_sizes.
  - scenario_safe.
Defined.

(** *** WARNING: the counter and the diagnostic *)

Lemma quiet_step rows s0 s s2 t b num_rows first last :
  0 <= t < len rows -> 0 <= b < batch_size rows (offsets s0) ->
  lookupZ rows t = Some num_rows ->
  lookupZ (offsets s) (t * batch_size rows (offsets s0) + b) = Some first ->
  lookupZ (offsets s) (t * batch_size rows (offsets s0) + b + 1) = Some last ->
  0 <= warning s ->
  quiet rows s0 (t * batch_size rows (offsets s0) + b) s ->
  segment_post WARNING (len (indices s0)) num_rows
    (t * batch_size rows (offsets s0) + b) first last s s2 ->
  quiet rows s0 (t * batch_size rows (offsets s0) + b + 1) s2.
Proof.
  set (B := batch_size rows (offsets s0)).
  intros Ht Hb Hrows H1 H2 Hw0 Hq Hpost Hw2.
  pose proof (segment_post_counts _ _ _ _ _ _ _ _ Hpost) as Hmono.
  destruct (Hq ltac:(lia)) as (Hoff & Hind & Hsegs).
  assert (Hok : segment_ok (len (indices s0)) num_rows (indices s) first last).
  { apply (segment_post_quiet _ _ _ _ _ _ _ Hpost). lia. }
  destruct (segment_post_ok _ _ _ _ _ _ _ _ H1 H2 Hok Hpost)
    as (Hoff2 & Hind2 & _).
  split_and!; try congruence.
  intros t' b' first' last' num_rows' Hseg' Hk Hrows'.
  destruct (Z.eq_dec (t' * B + b') (t * B + b)) as [Heq|Hne].
  - destruct Hseg' as (Ht' & Hb' & H1' & H2'). fold B in Hb', H1', H2'.
    apply segment_index_inj in Heq as [-> ->]; [|done|done].
    rewrite Hoff in H1, H2. rewrite Hind in Hok. congruence.
  - apply (Hsegs t' b'); [done|fold B; lia|done].
Qed.

(** C3: on tensors whose sizes fit [int],
    when the input holds at least one violation, a WARNING call returns,
    has emitted exactly one diagnostic record, and leaves the counter
    positive, whatever the counter held at entry. *)
Theorem warning_single_diagnostic rows ind0 off0 w0 :
  sizes_fit rows off0 ind0 -> has_violation rows off0 ind0 ->
  exists s' d,
    call rows ind0 off0 WARNING w0 = Ok tt s'
    /\ log s' = [d] /\ 0 < warning s'.
Proof.
  intros Hfit Hv. pose proof (has_violation_rows _ _ _ Hv) as HT.
  unfold call. set (s0 := mkState off0 ind0 w0 [] []).
  destruct (call_repairs_with WARNING rows s0
              (fun k s => logged [] s /\ quiet rows s0 k s) ltac:(done) HT Hfit)
    as (s' & Hrun & _ & [Hlog Hq] & _).
  - split; [by split_and!|]. intros _. split_and!; [done|done|].
    intros t b first last num_rows (Ht & Hb & _) Hk.
    pose proof (segment_index_bound _ _ _ _ Ht Hb). lia.
  - intros t b num_rows first last s s2 Ht Hb Hrows _ H1 H2 _ [Hlog Hq] Hpost.
    split.
    + destruct Hpost as (_ & _ & _ & Hlp & _). by apply Hlp.
    + destruct Hlog as [Hw0 _]. by eapply quiet_step.
  - destruct Hlog as (Hw0 & _ & Hd).
    destruct (Z.eq_dec (warning s') 0) as [Hz|Hnz].
    + destruct (Hq Hz) as (_ & _ & Hsegs).
      exfalso. apply (has_violation_not_safe _ _ _ Hv).
      apply segments_ok_safe; [done|].
      intros t b first last num_rows Hseg Hrows.
      apply (Hsegs t b first last num_rows Hseg); [|done].
      destruct Hseg as (Ht & Hb & _). change (offsets s0) with off0.
      pose proof (segment_index_bound _ _ _ _ Ht Hb). lia.
    + destruct Hd as [d Hd]; [lia|]. exists s', d. split_and!; (done || lia).
Qed.

Lemma warning_single_diagnostic_witness :
  sizes_fit [3] [0; 7; 5] [1; 5; -1; 2; 9] /\
  has_violation [3] [0; 7; 5] [1; 5; -1; 2; 9] /\
  exists s' d,
    call [3] [1; 5; -1; 2; 9] [0; 7; 5] WARNING 0 = Ok tt s'
    /\ log s' = [d] /\ 0 < warning s'.
Proof.
  split; [small_sizes|]. split; [scenario_has_violation|].
  apply (warning_single_diagnostic [3] [1; 5; -1; 2; 9] [0; 7; 5] 0).
  - small_sizes.
  - scenario_has_violation.
Defined.

(** *** WARNING against IGNORE *)

Lemma segment_table B t b : 0 <= b < B -> (t * B + b) / B = t.
Proof.
  intros Hb. rewrite Z.div_add_l by lia. rewrite Z.div_small by lia. lia.
Qed.

Lemma repaired_buffers_step p rows s0 s s2 t b num_rows first last :
  0 <= t < len rows -> 0 <= b < batch_size rows (offsets s0) ->
  lookupZ rows t = Some num_rows ->
  lookupZ (offsets s) (t * batch_size rows (offsets s0) + b) = Some first ->
  lookupZ (offsets s) (t * batch_size rows (offsets s0) + b + 1) = Some last ->
  (offsets s, indices s)
  = repaired_buffers rows (offsets s0) (indices s0)
      (Z.to_nat (t * batch_size rows (offsets s0) + b)) ->
  segment_post p (len (indices s0)) num_rows
    (t * batch_size rows (offsets s0) + b) first last s s2 ->
  (offsets s2, indices s2)
  = repaired_buffers rows (offsets s0) (indices s0)
      (Z.to_nat (t * batch_size rows (offsets s0) + b + 1)).
Proof.
  set (B := batch_size rows (offsets s0)).
  intros Ht Hb Hrows H1 H2 Hbufs (Hoff2 & Hind2 & _).
  pose proof (segment_index_bound _ _ _ _ Ht Hb) as [Hk0 _].
  replace (Z.to_nat (t * B + b + 1)) with (S (Z.to_nat (t * B + b))) by lia.
  cbn [repaired_buffers]. fold B. rewrite <- Hbufs.
  rewrite Z2Nat.id by lia. rewrite segment_table by done.
  unfold repair_segment. cbn [fst snd]. rewrite Hrows, H1, H2. cbn [default].
  by rewrite Hoff2, Hind2.
Qed.

(** C6: on tensors whose sizes fit [int],
    on the same input, a WARNING call and an IGNORE call both return, and
    with the same contents of [offsets] and [indices]; IGNORE leaves the
    counter and the diagnostic sink as they were. *)
Theorem warning_ignore_same_buffers rows ind0 off0 w0 :
  rows <> [] -> sizes_fit rows off0 ind0 ->
  exists sW sI,
    call rows ind0 off0 WARNING w0 = Ok tt sW
    /\ call rows ind0 off0 IGNORE w0 = Ok tt sI
    /\ offsets sW = offsets sI /\ indices sW = indices sI
    /\ warning sI = w0 /\ log sI = [].
Proof.
  intros HT Hfit. unfold call. set (s0 := mkState off0 ind0 w0 [] []).
  destruct (call_repairs_with WARNING rows s0
              (fun k s => (offsets s, indices s)
                          = repaired_buffers rows (offsets s0) (indices s0)
                              (Z.to_nat k)) ltac:(done) HT Hfit)
    as (sW & HrunW & _ & HW & _).
  { done. }
  { intros t b num_rows first last s s2 Ht Hb Hrows _ H1 H2 _ Hbufs Hpost.
    by eapply repaired_buffers_step. }
  destruct (call_repairs_with IGNORE rows s0
              (fun k s => (offsets s, indices s)
                          = repaired_buffers rows (offsets s0) (indices s0)
                              (Z.to_nat k)
                          /\ warning s = w0 /\ log s = []) ltac:(done) HT Hfit)
    as (sI & HrunI & _ & (HI & Hw & Hlog) & _).
  { done. }
  { intros t b num_rows first last s s2 Ht Hb Hrows _ H1 H2 _
      (Hbufs & Hw & Hlog) Hpost.
    split; [by eapply repaired_buffers_step|].
    destruct Hpost as (_ & _ & Hw2 & Hlog2 & _). simpl in Hw2, Hlog2.
    split; [lia|congruence]. }
  exists sW, sI. rewrite <- HI in HW. injection HW as Hoff Hind.
  by split_and!.
Qed.

Lemma warning_ignore_same_buffers_witness :
  [3] <> [] /\ sizes_fit [3] [0; 7; 5] [1; 5; -1; 2; 9] /\
  exists sW sI,
    call [3] [1; 5; -1; 2; 9] [0; 7; 5] WARNING 0 = Ok tt sW
    /\ call [3] [1; 5; -1; 2; 9] [0; 7; 5] IGNORE 0 = Ok tt sI
    /\ offsets sW = offsets sI /\ indices sW = indices sI
    /\ warning sI = 0 /\ log sI = [].
Proof.
  split; [discriminate|]. split; [small_sizes|].
  apply (warning_ignore_same_buffers [3] [1; 5; -1; 2; 9] [0; 7; 5] 0);
    [discriminate|small_sizes].
Defined.

(** C7: the first concrete scenario of the specification. *)
Theorem scenario_ignore :
  exists s',
    call [3] [1; 5; -1; 2; 9] [0; 2; 5] IGNORE 0 = Ok tt s'
    /\ offsets s' = [0; 2; 5] /\ indices s' = [1; 0; -1; 2; 0].
Proof. eexists. split; [vm_compute; reflexivity|]. by split. Qed.

(** C8: the second concrete scenario of the specification: the call returns,
    the offsets are repaired to [0; 5; 5], the counter is at least 1 and
    exactly one diagnostic has been emitted. *)
Theorem scenario_warning :
  exists s' d,
    call [3] [1; 5; -1; 2; 9] [0; 7; 5] WARNING 0 = Ok tt s'
    /\ offsets s' = [0; 5; 5] /\ 1 <= warning s' /\ log s' = [d].
Proof.
  eexists _, _. split; [vm_compute; reflexivity|]. simpl.
  split_and!; (done || lia).
Qed.

(** *** The counter as a tally *)

Lemma tally_ext f g m :
  (forall k, 0 <= k < Z.of_nat m -> f k = g k) -> tally f m = tally g m.
Proof.
  induction m as [|m IH]; intros H; simpl; [done|].
  rewrite IH by (intros; apply H; lia). by rewrite H by lia.
Qed.

Lemma one_if_segment n first last :
  one_if (segment_out_of_bounds n first last)
  = Z.b2z (segment_invalid first last n).
Proof.
  unfold one_if. destruct (segment_invalid first last n) eqn:Hinv.
  - rewrite decide_True; [done|]. unfold segment_out_of_bounds.
    destruct (Z.lt_ge_cases first 0); [lia|].
    destruct (Z.lt_ge_cases last first); [lia|].
    destruct (Z.lt_ge_cases n last); [lia|].
    assert (segment_invalid first last n = false)
      by (apply segment_invalid_false; lia). congruence.
  - apply segment_invalid_false in Hinv. rewrite decide_False; [done|].
    unfold segment_out_of_bounds. lia.
Qed.

Lemma one_if_row num_rows idx :
  one_if (row_out_of_bounds num_rows idx) = Z.b2z (is_bad num_rows idx).
Proof.
  unfold one_if, row_out_of_bounds. destruct (is_bad num_rows idx) eqn:Hbad.
  - apply is_bad_true in Hbad. rewrite decide_True; [done|lia].
  - apply is_bad_false in Hbad. rewrite decide_False; [done|lia].
Qed.

Lemma rows_out_of_bounds_count_bad num_rows ind first last :
  rows_out_of_bounds num_rows ind first last
  = count_bad num_rows ind first (Z.to_nat (last - first)).
Proof.
  unfold rows_out_of_bounds.
  induction (Z.to_nat (last - first)) as [|m IH]; simpl; [done|].
  rewrite IH. f_equal.
  destruct (lookupZ ind (first + Z.of_nat m)); [apply one_if_row|done].
Qed.

Lemma counted_step rows s0 s s2 t b num_rows first last :
  0 <= t < len rows -> 0 <= b < batch_size rows (offsets s0) ->
  lookupZ rows t = Some num_rows ->
  lookupZ (offsets s) (t * batch_size rows (offsets s0) + b) = Some first ->
  lookupZ (offsets s) (t * batch_size rows (offsets s0) + b + 1) = Some last ->
  repaired rows s0 (t * batch_size rows (offsets s0) + b) s ->
  warning s
  = tally (counted_at rows (offsets s0) (indices s0) (offsets s))
      (Z.to_nat (t * batch_size rows (offsets s0) + b)) ->
  segment_post WARNING (len (indices s0)) num_rows
    (t * batch_size rows (offsets s0) + b) first last s s2 ->
  warning s2
  = tally (counted_at rows (offsets s0) (indices s0) (offsets s2))
      (Z.to_nat (t * batch_size rows (offsets s0) + b + 1)).
Proof.
  set (B := batch_size rows (offsets s0)). set (k := t * B + b).
  set (n := len (indices s0)).
  intros Ht Hb Hrows H1 H2 Hrep Hcount (Hoff2 & _ & Hw2 & _).
  pose proof (segment_index_bound _ _ _ _ Ht Hb) as [Hk0 _]. fold k in Hk0.
  pose proof (lookupZ_Some_range _ _ _ H2) as [_ Hk1].
  set (first' := clamp_start first n) in *.
  set (last' := clamp_end first' last n) in *.
  assert (Hlk : forall j, lookupZ (offsets s2) j
                          = if j =? k + 1 then Some last'
                            else if j =? k then Some first'
                            else lookupZ (offsets s) j).
  { intros j. rewrite Hoff2. by apply lookupZ_offsets_after. }
  assert (Hsame : 0 < k -> first' = first).
  { intros Hpos. destruct (rep_chain _ _ _ _ Hrep Hpos) as (c & Hc & Hcr & _).
    assert (c = first) by congruence. subst c.
    unfold first', clamp_start. fold n in Hcr. lia. }
  assert (Hlow : forall j, 0 < k -> j <= k ->
                   lookupZ (offsets s2) j = lookupZ (offsets s) j).
  { intros j Hpos Hj. rewrite Hlk.
    destruct (Z.eqb_spec j (k + 1)); [lia|].
    destruct (Z.eqb_spec j k) as [->|]; [|done].
    by rewrite Hsame, H1. }
  replace (Z.to_nat (k + 1)) with (S (Z.to_nat k)) by lia.
  cbn [tally]. rewrite Z2Nat.id by lia.
  rewrite Hw2, Hcount. cbn [counted]. f_equal.
  - apply tally_ext. intros j Hj. unfold counted_at.
    rewrite !(Hlow j), !(Hlow (j + 1)) by lia.
    destruct (Z.eqb_spec j 0); [done|]. by rewrite Hlow by lia.
  - unfold counted_at. fold B. fold n.
    assert (Hstart : lookupZ (if k =? 0 then offsets s0 else offsets s2) k
                     = Some first).
    { destruct (Z.eqb_spec k 0) as [Hz|Hnz].
      - rewrite <- (rep_later _ _ _ _ Hrep k) by lia. done.
      - rewrite Hlow by lia. done. }
    rewrite Hstart.
    rewrite <- (rep_later _ _ _ _ Hrep (k + 1)) by lia. rewrite H2.
    rewrite !Hlk. rewrite !Z.eqb_refl.
    destruct (Z.eqb_spec k (k + 1)); [lia|].
    assert (Htab : k / B = t) by (by apply segment_table).
    rewrite Htab, Hrows.
    rewrite one_if_segment, rows_out_of_bounds_count_bad. f_equal.
    apply count_bad_ext. intros pos Hpos.
    apply (repaired_ahead rows s0 k s pos Hrep).
    destruct (Z.eq_dec k 0) as [|Hne]; [by left|right].
    exists first. split; [done|]. rewrite <- Hsame by lia. lia.
Qed.

(** On offsets that are in bounds the pass changes no offset. *)
Lemma offsets_in_bounds_step p rows s0 s s2 t b num_rows first last :
  offsets_in_bounds rows (offsets s0) (indices s0) ->
  0 <= t < len rows -> 0 <= b < batch_size rows (offsets s0) ->
  lookupZ (offsets s) (t * batch_size rows (offsets s0) + b) = Some first ->
  lookupZ (offsets s) (t * batch_size rows (offsets s0) + b + 1) = Some last ->
  offsets s = offsets s0 ->
  segment_post p (len (indices s0)) num_rows
    (t * batch_size rows (offsets s0) + b) first last s s2 ->
  offsets s2 = offsets s0.
Proof.
  intros Hwf Ht Hb H1 H2 Hoff (Hoff2 & _).
  destruct (Hwf t b Ht Hb) as (first0 & last0 & H1' & H2' & Hr0 & Hr1).
  rewrite Hoff in H1, H2.
  assert (first0 = first) by congruence. assert (last0 = last) by congruence.
  subst first0 last0.
  assert (Hinv : segment_invalid first last (len (indices s0)) = false)
    by (apply segment_invalid_false; lia).
  destruct (clamp_valid _ _ _ Hinv) as [Hs He].
  rewrite Hoff2, He, Hs, Hoff.
  rewrite (insertZ_id (offsets s0) _ first) by done. by apply insertZ_id.
Qed.

(** On offsets that are in bounds, what the pass counts is the number of
    violations of the input. *)
Lemma violations_counted_in_bounds rows off ind :
  offsets_in_bounds rows off ind ->
  violations_counted rows off ind off = input_violations rows off ind.
Proof.
  intros Hwf. unfold violations_counted, input_violations.
  apply tally_ext. intros k Hk.
  destruct (segment_of_index rows off k) as (t & b & Ht & Hb & ->); [lia|].
  destruct (Hwf t b Ht Hb) as (first & last & H1 & H2 & Hr0 & Hr1).
  unfold counted_at, input_violations_at.
  destruct (t * batch_size rows off + b =? 0); rewrite H1, H2;
    (destruct (lookupZ rows _); [|done]);
    unfold one_if;
    rewrite !decide_False by (unfold segment_out_of_bounds; lia); lia.
Qed.

(** C10, as the specification states it, fails when the repair of a segment
    changes the start of the next one.  The input below holds three
    violations: the segment [[4, 1)] does not lie in the buffer, and the
    segment [[1, 3)] holds the two ids 99 of a table of 3 rows.  The pass
    repairs the first segment to [[4, 4)], reads the second one as [[4, 3)],
    repairs it to [[4, 4)] and inspects no entry: the counter is 2, and the
    two ids 99 are still in [indices]. *)
Lemma counter_is_not_the_violations_of_the_input :
  exists s',
    call [3] [0; 99; 99; 0; 0] [4; 1; 3] WARNING 0 = Ok tt s'
    /\ warning s' = 2
    /\ input_violations [3] [4; 1; 3] [0; 99; 99; 0; 0] = 3
    /\ offsets s' = [4; 4; 4]
    /\ indices s' = [0; 99; 99; 0; 0].
Proof. eexists. split; [vm_compute; reflexivity|]. by vm_compute. Qed.

(** C10 (amended): on tensors whose sizes fit [int], under WARNING the
    counter at return does not depend on its value at entry and is the
    number of violations the pass has met: one per segment that does not lie
    in the buffer as the pass reads it (its start after the repair of the
    segment before, its end from the input), and one per entry of a segment
    as the offsets delimit it at return that is neither the sentinel nor a
    row of the segment's table.  When every segment of the input satisfies
    [0 <= start <= end <= len(Indices)] this is the number of violations of
    the input.  Under FATAL and IGNORE the counter is as it was at entry,
    whether the call returns or fails. *)
Theorem warning_counts_violations rows ind0 off0 w0 :
  rows <> [] -> sizes_fit rows off0 ind0 ->
  (exists s',
     call rows ind0 off0 WARNING w0 = Ok tt s'
     /\ warning s' = violations_counted rows off0 ind0 (offsets s')
     /\ (offsets_in_bounds rows off0 ind0 ->
         warning s' = input_violations rows off0 ind0))
  /\ (forall p s',
        p <> WARNING ->
        call rows ind0 off0 p w0 = Ok tt s'
        \/ call rows ind0 off0 p w0 = Throw s' ->
        warning s' = w0).
Proof.
  intros HT Hfit. unfold call. set (s0 := mkState off0 ind0 w0 [] []). split.
  - destruct (call_repairs_with WARNING rows s0
                (fun k s =>
                   warning s
                   = tally (counted_at rows (offsets s0) (indices s0)
                              (offsets s)) (Z.to_nat k)
                   /\ (offsets_in_bounds rows off0 ind0 ->
                       offsets s = offsets s0))
                ltac:(done) HT Hfit)
      as (s' & Hrun & _ & [Hcount Hkept] & _).
    + done.
    + intros t b num_rows first last s s2 Ht Hb Hrows _ H1 H2 Hrep
        [Hcount Hkept] Hpost.
      split; [by eapply counted_step|].
      intros Hwf.
      eapply (offsets_in_bounds_step WARNING rows s0 s s2 t b); try done.
      by apply Hkept.
    + exists s'.
      assert (Hall : warning s' = violations_counted rows off0 ind0 (offsets s')).
      { unfold violations_counted.
        change (offsets s0) with off0 in Hcount.
        change (indices s0) with ind0 in Hcount.
        destruct (Z.le_gt_cases (batch_size rows off0) 0) as [HB|HB].
        - replace (Z.max 0 (batch_size rows off0)) with 0 in Hcount by lia.
          pose proof (len_nonneg rows).
          replace (Z.to_nat (len rows * batch_size rows off0)) with 0%nat
            by nia.
          by replace (Z.to_nat (len rows * 0)) with 0%nat in Hcount by lia.
        - by replace (Z.max 0 (batch_size rows off0))
            with (batch_size rows off0) in Hcount by lia. }
      split_and!; [done|done|].
      intros Hwf. rewrite Hall, (Hkept Hwf).
      by apply violations_counted_in_bounds.
  - intros p s' Hp Hrun. destruct p; [|done|].
    + pose proof (call_fatal rows s0 HT Hfit) as H.
      destruct Hrun as [Hrun|Hrun]; rewrite Hrun in H; simpl in H;
        by destruct H as [[(_ & _ & Hw & _) _] _].
    + destruct (call_repairs_with IGNORE rows s0 (fun _ s => warning s = w0)
                  ltac:(done) HT Hfit) as (s2 & Hrun2 & _ & Hw & _).
      * done.
      * intros t b num_rows first last s s2 _ _ _ _ _ _ _ Hw Hpost.
        destruct Hpost as (_ & _ & Hw2 & _). simpl in Hw2. lia.
      * destruct Hrun as [Hrun|Hrun]; congruence.
Qed.

(** An input with two violations in segments that are in bounds. *)
Ltac scenario_in_bounds :=
  assert (HB : batch_size [3] [0; 2; 5] = 2) by reflexivity;
  intros t b Ht Hb; rewrite HB in *; unfold len in Ht; simpl in Ht;
  assert (t = 0) as -> by lia;
  assert (b = 0 \/ b = 1) as [-> | ->] by lia;
  [exists 0, 2 | exists 2, 5];
  vm_compute; split_and!; (done || congruence).

Lemma warning_counts_violations_witness :
  [3] <> [] /\ sizes_fit [3] [0; 2; 5] [1; 5; -1; 2; 9] /\
  (exists s',
     call [3] [1; 5; -1; 2; 9] [0; 2; 5] WARNING 41 = Ok tt s'
     /\ warning s'
        = violations_counted [3] [0; 2; 5] [1; 5; -1; 2; 9] (offsets s')
     /\ (offsets_in_bounds [3] [0; 2; 5] [1; 5; -1; 2; 9] ->
         warning s' = input_violations [3] [0; 2; 5] [1; 5; -1; 2; 9]))
  /\ (forall p s',
        p <> WARNING ->
        call [3] [1; 5; -1; 2; 9] [0; 2; 5] p 41 = Ok tt s'
        \/ call [3] [1; 5; -1; 2; 9] [0; 2; 5] p 41 = Throw s' ->
        warning s' = 41).
Proof.
  split; [discriminate|]. split; [small_sizes|].
  apply (warning_counts_violations [3] [1; 5; -1; 2; 9] [0; 2; 5] 41);
    [discriminate|small_sizes].
Defined.

Example input_violations_scenario :
  offsets_in_bounds [3] [0; 2; 5] [1; 5; -1; 2; 9]
  /\ input_violations [3] [0; 2; 5] [1; 5; -1; 2; 9] = 2.
Proof. split; [scenario_in_bounds|reflexivity]. Qed.

(** * Further properties of the routine *)

(** ** Degenerate shapes *)

(** X1: without a table ([T = 0]) the routine divides by zero on line 29,
    whatever the other tensors and the policy are: the call is undefined. *)
Theorem no_table_undefined ind0 off0 w0 p : call [] ind0 off0 p w0 = Undefined.
Proof. by destruct p. Qed.

Lemma quot_nonpos a T : 0 < T -> a < T -> Z.quot a T <= 0.
Proof.
  intros HT Ha. destruct (Z.le_gt_cases 0 a) as [H0|H0].
  - rewrite Z.quot_small by lia. lia.
  - pose proof (Z.quot_pos (- a) T ltac:(lia) HT) as Hneg.
    rewrite Z.quot_opp_l in Hneg by lia. lia.
Qed.

(** X2: with fewer than [2 ^ 31] tables, so that [T] is their number, and
    with fewer than [T + 1] offsets the derived [B] is not positive and
    no segment is processed: the call returns without a single access to
    [offsets] or [indices] and without a diagnostic; the only effect is the
    reset of the counter under WARNING. *)
Theorem no_segment_no_effect rows ind0 off0 w0 p :
  rows <> [] -> len rows < 2 ^ 31 -> len off0 <= len rows ->
  exists s',
    call rows ind0 off0 p w0 = Ok tt s'
    /\ offsets s' = off0 /\ indices s' = ind0
    /\ warning s' = (if decide (p = WARNING) then 0 else w0)
    /\ log s' = [] /\ trace s' = [].
Proof.
  intros HT HsT Hlen. unfold call. set (s0 := mkState off0 ind0 w0 [] []).
  assert (HB : batch_size rows (offsets s0) <= 0).
  { apply quot_nonpos; [by apply len_pos|simpl; lia]. }
  assert (Hso : len (offsets s0) <= 2 ^ 31) by (simpl; lia).
  pose proof (bounds_check_wp p rows s0 (fun _ s => s = entry p s0)
                (fun _ => False) HT HsT Hso eq_refl) as H.
  apply wp_Ok in H as ([] & s' & Hrun & ->).
  - exists (entry p s0). split; [done|]. by destruct p.
  - intros t b num_rows s _ Hb. lia.
Qed.

Lemma no_segment_no_effect_witness :
  [3; 4] <> [] /\ len [3; 4] < 2 ^ 31 /\ len [0; 9] <= len [3; 4] /\
  exists s',
    call [3; 4] [7; 8] [0; 9] WARNING 5 = Ok tt s'
    /\ offsets s' = [0; 9] /\ indices s' = [7; 8]
    /\ warning s' = (if decide (WARNING = WARNING) then 0 else 5)
    /\ log s' = [] /\ trace s' = [].
Proof.
  split; [discriminate|]. split; [by vm_compute|].
  split; [vm_compute; discriminate|].
  apply (no_segment_no_effect [3; 4] [7; 8] [0; 9] 5 WARNING).
  - discriminate.
  - by vm_compute.
  - vm_compute. discriminate.
Defined.

(** ** What the routine leaves alone *)

(** X3: on tensors whose sizes fit [int],
    under every policy, whether the call returns or fails, the two
    tensors keep their sizes and the offsets at positions above [T * B] (the
    offsets left over when [len(Offsets) - 1] is not a multiple of [T]) are
    those of the input. *)
Theorem tensors_keep_shape rows ind0 off0 w0 p :
  rows <> [] -> sizes_fit rows off0 ind0 ->
  exists s',
    (call rows ind0 off0 p w0 = Ok tt s'
     \/ (p = FATAL /\ call rows ind0 off0 p w0 = Throw s'))
    /\ length (offsets s') = length off0
    /\ length (indices s') = length ind0
    /\ (forall j, len rows * batch_size rows off0 < j ->
          lookupZ (offsets s') j = lookupZ off0 j).
Proof.
  intros HT Hfit. unfold call. set (s0 := mkState off0 ind0 w0 [] []).
  destruct (decide (p = FATAL)) as [->|Hp].
  - pose proof (call_fatal rows s0 HT Hfit) as H.
    destruct (bounds_check_indices_cpu rows (mode_value FATAL) s0)
      as [[] s'|s'|]; simpl in H; [| |done];
      destruct H as [[(Hoff & Hind & _) _] _]; exists s';
      rewrite Hoff, Hind; auto.
  - destruct (call_repairs_with p rows s0 (fun _ _ => True) Hp HT Hfit)
      as (s' & Hrun & Hrep & _ & [Hoff Hind]); [done|done|].
    exists s'. split_and!; [auto|done|done|].
    intros j Hj. apply (rep_later _ _ _ _ Hrep).
    change (offsets s0) with off0.
    pose proof (len_pos rows HT).
    destruct (Z.le_gt_cases (batch_size rows off0) 0);
      [right|left]; nia.
Qed.

Lemma tensors_keep_shape_witness :
  [3; 4] <> [] /\ sizes_fit [3; 4] [0; 1; 7; 2] [1; 9] /\
  exists s',
    (call [3; 4] [1; 9] [0; 1; 7; 2] IGNORE 0 = Ok tt s'
     \/ (IGNORE = FATAL /\ call [3; 4] [1; 9] [0; 1; 7; 2] IGNORE 0 = Throw s'))
    /\ length (offsets s') = length [0; 1; 7; 2]
    /\ length (indices s') = length [1; 9]
    /\ (forall j, len [3; 4] * batch_size [3; 4] [0; 1; 7; 2] < j ->
          lookupZ (offsets s') j = lookupZ [0; 1; 7; 2] j).
Proof.
  split; [discriminate|]. split; [small_sizes|].
  apply (tensors_keep_shape [3; 4] [1; 9] [0; 1; 7; 2] 0 IGNORE);
    [discriminate|small_sizes].
Defined.

(** ** FATAL *)

(** X7: on tensors whose sizes fit [int],
    a FATAL call only reads: in both outcomes [offsets], [indices], the
    counter and the diagnostic sink are as at entry.  It returns when the
    input satisfies the safety invariant, and throws when the input holds a
    violation; there is no third outcome. *)
Theorem fatal_returns_iff_safe rows ind0 off0 w0 :
  rows <> [] -> sizes_fit rows off0 ind0 ->
  exists s',
    offsets s' = off0 /\ indices s' = ind0 /\ warning s' = w0 /\ log s' = []
    /\ ((call rows ind0 off0 FATAL w0 = Ok tt s'
         /\ safety_invariant rows off0 ind0)
        \/ (call rows ind0 off0 FATAL w0 = Throw s'
            /\ has_violation rows off0 ind0)).
Proof.
  intros HT Hfit. unfold call. set (s0 := mkState off0 ind0 w0 [] []).
  pose proof (call_fatal rows s0 HT Hfit) as H.
  destruct (bounds_check_indices_cpu rows (mode_value FATAL) s0)
    as [[] s'|s'|]; simpl in H; [| |done];
    destruct H as [[(Hoff & Hind & Hw & Hlog) _] H]; exists s';
    split_and!; auto.
Qed.

Lemma fatal_returns_iff_safe_witness :
  [3] <> [] /\ sizes_fit [3] [0; 7; 5] [1; 5; -1; 2; 9] /\
  exists s',
    offsets s' = [0; 7; 5] /\ indices s' = [1; 5; -1; 2; 9]
    /\ warning s' = 4 /\ log s' = []
    /\ ((call [3] [1; 5; -1; 2; 9] [0; 7; 5] FATAL 4 = Ok tt s'
         /\ safety_invariant [3] [0; 7; 5] [1; 5; -1; 2; 9])
        \/ (call [3] [1; 5; -1; 2; 9] [0; 7; 5] FATAL 4 = Throw s'
            /\ has_violation [3] [0; 7; 5] [1; 5; -1; 2; 9])).
Proof.
  split; [discriminate|]. split; [small_sizes|].
  apply (fatal_returns_iff_safe [3] [1; 5; -1; 2; 9] [0; 7; 5] 4);
    [discriminate|small_sizes].
Defined.

(** ** WARNING and IGNORE: what a repair may write *)

(** X4: on tensors whose sizes fit [int],
    a repairing call changes an entry of [indices] only to 0, and only
    an entry that is not the sentinel and is not a row of some table. *)
Theorem repairs_write_only_zero rows ind0 off0 w0 p :
  p <> FATAL -> rows <> [] -> sizes_fit rows off0 ind0 ->
  exists s',
    call rows ind0 off0 p w0 = Ok tt s'
    /\ forall i v0,
         lookupZ ind0 i = Some v0 ->
         exists v,
           lookupZ (indices s') i = Some v
           /\ (v = v0
               \/ (v = 0 /\ v0 <> -1
                   /\ exists t num_rows,
                        lookupZ rows t = Some num_rows
                        /\ (v0 < 0 \/ v0 >= num_rows))).
Proof.
  intros Hp HT Hfit. unfold call. set (s0 := mkState off0 ind0 w0 [] []).
  destruct (call_repairs_with p rows s0
              (fun _ s =>
                 forall i v, lookupZ (indices s) i = Some v ->
                   exists v0, lookupZ ind0 i = Some v0
                     /\ (v = v0
                         \/ (v = 0 /\ v0 <> -1
                             /\ exists t num_rows,
                                  lookupZ rows t = Some num_rows
                                  /\ (v0 < 0 \/ v0 >= num_rows)))) Hp HT Hfit)
    as (s' & Hrun & _ & HX & [_ Hlen]).
  - rewrite entry_indices. intros i v Hv. exists v. auto.
  - intros t b num_rows first last s s2 Ht Hb Hrows _ _ _ _ HX
      (_ & Hind2 & _) i v Hv.
    rewrite Hind2 in Hv.
    destruct (decide (clamp_start first (len (indices s0)) <= i
                      < clamp_end (clamp_start first (len (indices s0))) last
                          (len (indices s0)))) as [Hin|Hout].
    + rewrite lookupZ_repair_range_in in Hv by done.
      destruct (lookupZ (indices s) i) as [v1|] eqn:Hv1; [|done].
      simpl in Hv. injection Hv as <-.
      destruct (HX i v1 Hv1) as (v0 & Hv0 & Hrel). exists v0. split; [done|].
      unfold repair_idx. destruct (is_bad num_rows v1) eqn:Hbad; [|exact Hrel].
      apply is_bad_true in Hbad as [Hne Hbad].
      destruct Hrel as [->|(-> & Hne0 & Hex)]; [|by right].
      right. split_and!; [done|done|]. exists t, num_rows. split; [done|lia].
    + rewrite lookupZ_repair_range_out in Hv by done. by apply HX.
  - exists s'. split; [done|]. intros i v0 Hv0.
    destruct (lookupZ_in_range (indices s') i) as [v Hv].
    { apply lookupZ_Some_range in Hv0. rewrite (len_eq _ _ Hlen). done. }
    exists v. split; [done|].
    destruct (HX i v Hv) as (v0' & Hv0' & Hrel).
    assert (v0' = v0) by congruence. by subst.
Qed.

Lemma repairs_write_only_zero_witness :
  IGNORE <> FATAL /\ [3] <> [] /\ sizes_fit [3] [0; 2; 5] [1; 5; -1; 2; 9] /\
  exists s',
    call [3] [1; 5; -1; 2; 9] [0; 2; 5] IGNORE 0 = Ok tt s'
    /\ forall i v0,
         lookupZ [1; 5; -1; 2; 9] i = Some v0 ->
         exists v,
           lookupZ (indices s') i = Some v
           /\ (v = v0
               \/ (v = 0 /\ v0 <> -1
                   /\ exists t num_rows,
                        lookupZ [3] t = Some num_rows
                        /\ (v0 < 0 \/ v0 >= num_rows))).
Proof.
  split; [discriminate|]. split; [discriminate|]. split; [small_sizes|].
  apply (repairs_write_only_zero [3] [1; 5; -1; 2; 9] [0; 2; 5] 0 IGNORE);
    [discriminate|discriminate|small_sizes].
Defined.

(** ** WARNING: a bound on the counter *)

Lemma count_bad_le num_rows l first n :
  count_bad num_rows l first n <= Z.of_nat n.
Proof.
  induction n as [|n IH]; [done|]. cbn [count_bad].
  destruct (lookupZ l (first + Z.of_nat n)) as [v|]; [|lia].
  destruct (is_bad num_rows v); simpl; lia.
Qed.

(** X6: on tensors whose sizes fit [int],
    the counter a WARNING call returns is at most the number of segments
    plus the number of indices: a segment counts at most once, and so does an
    entry, the processed segments being disjoint. *)
Theorem warning_counter_bounded rows ind0 off0 w0 :
  rows <> [] -> sizes_fit rows off0 ind0 ->
  exists s',
    call rows ind0 off0 WARNING w0 = Ok tt s'
    /\ 0 <= warning s'
       <= len rows * Z.max 0 (batch_size rows off0) + len ind0.
Proof.
  intros HT Hfit. unfold call. set (s0 := mkState off0 ind0 w0 [] []).
  destruct (call_repairs_with WARNING rows s0
              (fun k s =>
                 0 <= warning s
                 /\ (k = 0 -> warning s = 0)
                 /\ (0 < k -> forall c, lookupZ (offsets s) k = Some c ->
                       warning s <= k + c)) ltac:(done) HT Hfit)
    as (s' & Hrun & Hrep & (Hw0 & Hz & Hb) & _).
  - simpl. split_and!; [done|done|lia].
  - intros t b num_rows first last s s2 Ht Hb Hrows _ H1 H2 Hrep
      (Hw0 & Hz & Hbd) (Hoff2 & _ & Hw2 & _).
    set (B := batch_size rows (offsets s0)) in *. set (k := t * B + b) in *.
    pose proof (segment_index_bound _ _ _ _ Ht Hb) as [Hk0 _]. fold k in Hk0.
    pose proof (lookupZ_Some_range _ _ _ H2) as [_ Hk1].
    pose proof (clamp_bounds first last (len (indices s0)) (len_nonneg _))
      as (Hc0 & Hc1 & Hc2).
    set (first' := clamp_start first (len (indices s0))) in *.
    set (last' := clamp_end first' last (len (indices s0))) in *.
    pose proof (count_bad_le num_rows (indices s) first'
                  (Z.to_nat (last' - first'))) as Hle.
    pose proof (count_bad_nonneg num_rows (indices s) first'
                  (Z.to_nat (last' - first'))) as Hge.
    cbn [counted] in Hw2.
    assert (Hinv : 0 <= Z.b2z (segment_invalid first last (len (indices s0)))
                   <= 1)
      by (destruct (segment_invalid first last (len (indices s0))); simpl; lia).
    split_and!; [lia|lia|].
    intros _ c Hc. rewrite Hoff2, lookupZ_offsets_after in Hc by lia.
    rewrite Z.eqb_refl in Hc. injection Hc as <-.
    destruct (Z.eq_dec k 0) as [Hk|Hk].
    + rewrite (Hz Hk) in Hw2. lia.
    + pose proof (Hbd ltac:(lia) first H1) as Hb1.
      destruct (rep_chain _ _ _ _ Hrep) as (c & Hc & Hcr & _); [lia|].
      assert (c = first) by congruence. subst c.
      assert (first' = first) by (unfold first', clamp_start; lia).
      lia.
  - exists s'. split; [done|]. split; [done|].
    change (offsets s0) with off0 in *. change (indices s0) with ind0 in *.
    pose proof (len_nonneg ind0).
    destruct (Z.eq_dec (len rows * Z.max 0 (batch_size rows off0)) 0)
      as [HK|HK].
    + rewrite (Hz HK). lia.
    + assert (HKpos : 0 < len rows * Z.max 0 (batch_size rows off0)).
      { pose proof (len_nonneg rows).
        assert (0 <= Z.max 0 (batch_size rows off0)) by lia. nia. }
      destruct (rep_chain _ _ _ _ Hrep HKpos) as (c & Hc & Hcr & _).
      pose proof (Hb HKpos c Hc). change (indices s0) with ind0 in Hcr. lia.
Qed.

Lemma warning_counter_bounded_witness :
  [3] <> [] /\ sizes_fit [3] [0; 7; 5] [1; 5; -1; 2; 9] /\
  exists s',
    call [3] [1; 5; -1; 2; 9] [0; 7; 5] WARNING 0 = Ok tt s'
    /\ 0 <= warning s'
       <= len [3] * Z.max 0 (batch_size [3] [0; 7; 5]) + len [1; 5; -1; 2; 9].
Proof.
  split; [discriminate|]. split; [small_sizes|].
  apply (warning_counter_bounded [3] [1; 5; -1; 2; 9] [0; 7; 5] 0);
    [discriminate|small_sizes].
Defined.

(** ** WARNING and IGNORE: the segments at return *)

(** Offsets that are ordered pairwise are ordered throughout. *)
Lemma chain_ordered (offs : list Z) K :
  (forall j, 0 <= j < K ->
     exists a e, lookupZ offs j = Some a /\ lookupZ offs (j + 1) = Some e
       /\ a <= e) ->
  forall (d : nat) j a e,
    0 <= j -> j + Z.of_nat d <= K ->
    lookupZ offs j = Some a -> lookupZ offs (j + Z.of_nat d) = Some e ->
    a <= e.
Proof.
  intros Hchain d. induction d as [|d IH]; intros j a e Hj HK Ha He.
  - rewrite Z.add_0_r in He. assert (a = e) by congruence. lia.
  - destruct (Hchain (j + Z.of_nat d)) as (a' & e' & Ha' & He' & Hle); [lia|].
    replace (j + Z.of_nat d + 1) with (j + Z.of_nat (S d)) in He' by lia.
    assert (e' = e) by congruence. subst e'.
    pose proof (IH j a a' Hj ltac:(lia) Ha Ha'). lia.
Qed.

(** X10: on tensors whose sizes fit [int],
    after a repairing call the segments are pairwise disjoint, across
    batch elements and across tables: no position of [indices] lies in two
    different segments. *)
Theorem repaired_segments_disjoint rows ind0 off0 w0 p :
  p <> FATAL -> rows <> [] -> sizes_fit rows off0 ind0 ->
  exists s',
    call rows ind0 off0 p w0 = Ok tt s'
    /\ forall t1 b1 first1 last1 t2 b2 first2 last2 i,
         segment_of rows (offsets s') t1 b1 first1 last1 ->
         segment_of rows (offsets s') t2 b2 first2 last2 ->
         (t1, b1) <> (t2, b2) ->
         first1 <= i < last1 -> first2 <= i < last2 -> False.
Proof.
  intros Hp HT Hfit. unfold call. set (s0 := mkState off0 ind0 w0 [] []).
  destruct (call_repairs_with p rows s0 (fun _ _ => True) Hp HT Hfit)
    as (s' & Hrun & Hrep & _ & Hshape); [done|done|].
  exists s'. split; [done|].
  pose proof (batch_size_shape rows s0 s' Hshape) as HB.
  set (B := batch_size rows (offsets s0)) in *.
  assert (Hlt : forall t1 b1 last1 t2 b2 first2,
            0 <= t1 < len rows -> 0 <= b1 < B ->
            0 <= t2 < len rows -> 0 <= b2 < B ->
            lookupZ (offsets s') (t1 * B + b1 + 1) = Some last1 ->
            lookupZ (offsets s') (t2 * B + b2) = Some first2 ->
            t1 * B + b1 < t2 * B + b2 -> last1 <= first2).
  { intros t1 b1 last1 t2 b2 first2 Ht1 Hb1 Ht2 Hb2 H1 H2 Hk.
    pose proof (segment_index_bound _ _ _ _ Ht1 Hb1) as [Hk1 _].
    pose proof (segment_index_bound _ _ _ _ Ht2 Hb2) as [_ Hk2].
    replace (Z.max 0 B) with B in Hrep by lia.
    destruct (rep_chain _ _ _ _ Hrep) as (c & _ & _ & Hchain); [lia|].
    apply (chain_ordered (offsets s') (len rows * B))
      with (d := Z.to_nat (t2 * B + b2 - (t1 * B + b1 + 1)))
           (j := t1 * B + b1 + 1); try lia.
    - intros j Hj. destruct (Hchain j Hj) as (a & e & Ha & He & Hae & _).
      exists a, e. split_and!; (done || lia).
    - done.
    - by replace (t1 * B + b1 + 1
                  + Z.of_nat (Z.to_nat (t2 * B + b2 - (t1 * B + b1 + 1))))
        with (t2 * B + b2) by lia. }
  intros t1 b1 first1 last1 t2 b2 first2 last2 i
    (Ht1 & Hb1 & Hf1 & Hl1) (Ht2 & Hb2 & Hf2 & Hl2) Hne Hi1 Hi2.
  rewrite HB in *.
  destruct (Z.lt_trichotomy (t1 * B + b1) (t2 * B + b2)) as [Hk|[Hk|Hk]].
  - pose proof (Hlt t1 b1 last1 t2 b2 first2 Ht1 Hb1 Ht2 Hb2 Hl1 Hf2 Hk).
    lia.
  - apply segment_index_inj in Hk as [-> ->]; done.
  - pose proof (Hlt t2 b2 last2 t1 b1 first1 Ht2 Hb2 Ht1 Hb1 Hl2 Hf1 Hk).
    lia.
Qed.

Lemma repaired_segments_disjoint_witness :
  WARNING <> FATAL /\ [3; 4] <> [] /\
  sizes_fit [3; 4] [0; 7; 2; 9; 1] [1; 5; -1; 2; 9] /\
  exists s',
    call [3; 4] [1; 5; -1; 2; 9] [0; 7; 2; 9; 1] WARNING 0 = Ok tt s'
    /\ forall t1 b1 first1 last1 t2 b2 first2 last2 i,
         segment_of [3; 4] (offsets s') t1 b1 first1 last1 ->
         segment_of [3; 4] (offsets s') t2 b2 first2 last2 ->
         (t1, b1) <> (t2, b2) ->
         first1 <= i < last1 -> first2 <= i < last2 -> False.
Proof.
  split; [discriminate|]. split; [discriminate|]. split; [small_sizes|].
  apply (repaired_segments_disjoint [3; 4] [1; 5; -1; 2; 9] [0; 7; 2; 9; 1]
           0 WARNING); [discriminate|discriminate|small_sizes].
Defined.

(** X11: on tensors whose sizes fit [int],
    a repairing call computes a function of the input: the contents of
    [offsets] and [indices] at return are the fold of the per-segment repair
    over the segments in table-major order, whatever the counter held. *)
Theorem repairs_refine_fold rows ind0 off0 w0 p :
  p <> FATAL -> rows <> [] -> sizes_fit rows off0 ind0 ->
  exists s',
    call rows ind0 off0 p w0 = Ok tt s'
    /\ (offsets s', indices s')
       = repaired_buffers rows off0 ind0
           (Z.to_nat (len rows * batch_size rows off0)).
Proof.
  intros Hp HT Hfit. unfold call. set (s0 := mkState off0 ind0 w0 [] []).
  destruct (call_repairs_with p rows s0
              (fun k s => (offsets s, indices s)
                          = repaired_buffers rows (offsets s0) (indices s0)
                              (Z.to_nat k)) Hp HT Hfit)
    as (s' & Hrun & _ & Hbufs & _).
  - by rewrite entry_offsets, entry_indices.
  - intros t b num_rows first last s s2 Ht Hb Hrows _ H1 H2 _ Hbufs Hpost.
    by eapply repaired_buffers_step.
  - exists s'. split; [done|]. rewrite Hbufs.
    change (offsets s0) with off0. change (indices s0) with ind0.
    f_equal. pose proof (len_nonneg rows).
    destruct (Z.le_gt_cases (batch_size rows off0) 0).
    + replace (Z.max 0 (batch_size rows off0)) with 0 by lia. nia.
    + by replace (Z.max 0 (batch_size rows off0)) with (batch_size rows off0)
        by lia.
Qed.

Lemma repairs_refine_fold_witness :
  IGNORE <> FATAL /\ [3] <> [] /\ sizes_fit [3] [0; 7; 5] [1; 5; -1; 2; 9] /\
  exists s',
    call [3] [1; 5; -1; 2; 9] [0; 7; 5] IGNORE 0 = Ok tt s'
    /\ (offsets s', indices s')
       = repaired_buffers [3] [0; 7; 5] [1; 5; -1; 2; 9]
           (Z.to_nat (len [3] * batch_size [3] [0; 7; 5])).
Proof.
  split; [discriminate|]. split; [discriminate|]. split; [small_sizes|].
  apply (repairs_refine_fold [3] [1; 5; -1; 2; 9] [0; 7; 5] 0 IGNORE);
    [discriminate|discriminate|small_sizes].
Defined.

(** X12: on tensors whose sizes fit [int],
    when every segment of the input lies in [indices], a repairing call
    leaves [offsets] as it is and has exactly this effect on [indices]: an
    entry of a segment of table [t] that is the sentinel or a row of the table
    is kept, any other entry of the segment becomes 0, and the entries outside
    the segments are kept. *)
Theorem wellformed_offsets_exact_repair rows ind0 off0 w0 p :
  p <> FATAL -> rows <> [] -> sizes_fit rows off0 ind0 ->
  offsets_in_bounds rows off0 ind0 ->
  exists s',
    call rows ind0 off0 p w0 = Ok tt s'
    /\ offsets s' = off0
    /\ (forall t b first last num_rows i idx,
          segment_of rows off0 t b first last ->
          lookupZ rows t = Some num_rows ->
          first <= i < last -> lookupZ ind0 i = Some idx ->
          lookupZ (indices s') i
          = Some (if decide (idx = -1 \/ 0 <= idx < num_rows)
                  then idx else 0))
    /\ (forall i,
          (forall t b first last,
             segment_of rows off0 t b first last -> ~ first <= i < last) ->
          lookupZ (indices s') i = lookupZ ind0 i).
Proof.
  intros Hp HT Hfit Hwf. unfold call. set (s0 := mkState off0 ind0 w0 [] []).
  destruct (call_repairs_with p rows s0 (fun _ s => offsets s = off0) Hp HT Hfit)
    as (s' & Hrun & Hrep & Hoff & Hshape).
  - by rewrite entry_offsets.
  - intros t b num_rows first last s s2 Ht Hb Hrows _ H1 H2 _ Hoff
      (Hoff2 & _).
    destruct (Hwf t b Ht Hb) as (first0 & last0 & H1' & H2' & Hr0 & Hr1).
    rewrite Hoff in H1, H2. change (offsets s0) with off0 in *.
    assert (first0 = first) by congruence. assert (last0 = last) by congruence.
    subst first0 last0.
    assert (Hinv : segment_invalid first last (len (indices s0)) = false)
      by (apply segment_invalid_false; simpl; lia).
    destruct (clamp_valid _ _ _ Hinv) as [Hs He].
    rewrite Hoff2, He, Hs, Hoff.
    rewrite (insertZ_id off0 _ first) by done. by apply insertZ_id.
  - exists s'. split; [done|]. split; [done|].
    pose proof (batch_size_shape rows s0 s' Hshape) as HB.
    change (offsets s0) with off0 in *. split.
    + intros t b first last num_rows i idx (Ht & Hb & H1 & H2) Hrows Hi Hidx.
      pose proof (segment_index_bound _ _ _ _ Ht Hb) as [Hk0 Hk1].
      destruct (lookupZ_in_range (indices s') i) as [v Hv].
      { apply lookupZ_Some_range in Hidx.
        by rewrite (len_eq _ _ (proj2 Hshape)). }
      replace (Z.max 0 (batch_size rows off0)) with (batch_size rows off0)
        in Hrep by lia.
      assert (H1' : lookupZ (offsets s') (t * batch_size rows off0 + b)
                    = Some first) by (by rewrite Hoff).
      assert (H2' : lookupZ (offsets s') (t * batch_size rows off0 + b + 1)
                    = Some last) by (by rewrite Hoff).
      destruct (rep_inside _ _ _ _ Hrep t b first last num_rows i v
                  Ht Hb ltac:(simpl; lia) Hrows H1' H2' Hi Hv)
        as (v0 & Hv0 & ->).
      change (indices s0) with ind0 in Hv0.
      assert (v0 = idx) by congruence. subst v0. rewrite Hv. f_equal.
      unfold repair_idx. destruct (is_bad num_rows idx) eqn:Hbad.
      * apply is_bad_true in Hbad. by rewrite decide_False by lia.
      * apply is_bad_false in Hbad. by rewrite decide_True by lia.
    + intros i Hi. apply (rep_outside _ _ _ _ Hrep). intros j a e Hj Ha He.
      destruct (segment_of_index rows off0 j) as (t & b & Ht & Hb & ->);
        [lia|].
      rewrite Hoff in Ha, He.
      apply (Hi t b). unfold segment_of. split_and!; (done || lia).
Qed.

Lemma wellformed_offsets_exact_repair_witness :
  IGNORE <> FATAL /\ [3] <> [] /\ sizes_fit [3] [0; 2; 5] [1; 5; -1; 2; 9] /\
  offsets_in_bounds [3] [0; 2; 5] [1; 5; -1; 2; 9] /\
  exists s',
    call [3] [1; 5; -1; 2; 9] [0; 2; 5] IGNORE 0 = Ok tt s'
    /\ offsets s' = [0; 2; 5]
    /\ (forall t b first last num_rows i idx,
          segment_of [3] [0; 2; 5] t b first last ->
          lookupZ [3] t = Some num_rows ->
          first <= i < last -> lookupZ [1; 5; -1; 2; 9] i = Some idx ->
          lookupZ (indices s') i
          = Some (if decide (idx = -1 \/ 0 <= idx < num_rows)
                  then idx else 0))
    /\ (forall i,
          (forall t b first last,
             segment_of [3] [0; 2; 5] t b first last -> ~ first <= i < last) ->
          lookupZ (indices s') i = lookupZ [1; 5; -1; 2; 9] i).
Proof.
  assert (Hwf : offsets_in_bounds [3] [0; 2; 5] [1; 5; -1; 2; 9]).
  { assert (HB : batch_size [3] [0; 2; 5] = 2) by reflexivity.
    intros t b Ht Hb. rewrite HB in *. unfold len in Ht. simpl in Ht.
    assert (t = 0) as -> by lia.
    assert (b = 0 \/ b = 1) as [-> | ->] by lia;
      [exists 0, 2 | exists 2, 5];
      vm_compute; split_and!; (done || congruence). }
  split; [discriminate|]. split; [discriminate|]. split; [small_sizes|].
  split; [exact Hwf|].
  apply (wellformed_offsets_exact_repair [3] [1; 5; -1; 2; 9] [0; 2; 5] 0
           IGNORE); [discriminate|discriminate|small_sizes|exact Hwf].
Defined.

(** ** Calls in sequence *)

(** A call on tensors that satisfy the safety invariant returns them as they
    are, from any store. *)
Lemma bounds_check_valid_noop p rows s0 :
  rows <> [] -> sizes_fit rows (offsets s0) (indices s0) ->
  safety_invariant rows (offsets s0) (indices s0) ->
  exists s',
    bounds_check_indices_cpu rows (mode_value p) s0 = Ok tt s'
    /\ offsets s' = offsets s0 /\ indices s' = indices s0
    /\ warning s' = warning (entry p s0) /\ log s' = log s0.
Proof.
  intros HT Hfit Hsafe. destruct (decide (p = FATAL)) as [->|Hp].
  - pose proof (call_fatal rows s0 HT Hfit) as H.
    destruct (bounds_check_indices_cpu rows (mode_value FATAL) s0)
      as [[] s'|s'|]; simpl in H; [| |done].
    + destruct H as [[(Hoff & Hind & Hw & Hlog) _] _]. by exists s'.
    + destruct H as [_ Hv]. by apply has_violation_not_safe in Hv.
  - destruct (call_repairs_with p rows s0
                (fun _ s => offsets s = offsets s0 /\ indices s = indices s0
                            /\ warning s = warning (entry p s0)
                            /\ log s = log s0) Hp HT Hfit)
      as (s' & Hrun & _ & HX & _).
    + by rewrite entry_offsets, entry_indices, entry_log.
    + intros t b num_rows first last s s2 Ht Hb Hrows _ H1 H2 _
        (Hoff & Hind & Hw & Hlog) Hpost.
      assert (Hok : segment_ok (len (indices s0)) num_rows (indices s)
                      first last).
      { rewrite Hind.
        apply (safe_segments_ok rows (offsets s0) (indices s0) t b);
          [done| |done].
        rewrite Hoff in H1, H2. unfold segment_of. split_and!; (done || lia). }
      destruct (segment_post_ok _ _ _ _ _ _ _ _ H1 H2 Hok Hpost)
        as (Hoff2 & Hind2 & Hw2).
      split_and!; try congruence.
      destruct Hpost as (_ & _ & _ & Hlp & _).
      destruct p; [done| |simpl in Hlp; congruence].
      simpl in Hlp, Hw. destruct (Hlp (log s)) as (_ & Hl0 & _).
      { unfold logged. rewrite Hw. split_and!; (done || lia). }
      rewrite Hl0 by congruence. done.
    + by exists s'.
Qed.

(** X5: on tensors whose sizes fit [int],
    when every table has rows, the tensors a repairing call returns
    satisfy the safety invariant, so that any further call on them, under any
    policy, returns and changes nothing: FATAL accepts them, and WARNING
    counts no violation and emits no diagnostic. *)
Theorem repaired_output_passes_validation rows ind0 off0 w0 p :
  p <> FATAL -> rows <> [] -> sizes_fit rows off0 ind0 ->
  Forall (fun num_rows => 0 < num_rows) rows ->
  exists s',
    call rows ind0 off0 p w0 = Ok tt s'
    /\ safety_invariant rows (offsets s') (indices s')
    /\ forall p2 w2,
         exists s'',
           call rows (indices s') (offsets s') p2 w2 = Ok tt s''
           /\ offsets s'' = offsets s' /\ indices s'' = indices s'
           /\ warning s'' = (if decide (p2 = WARNING) then 0 else w2)
           /\ log s'' = [].
Proof.
  intros Hp HT Hfit Hpos. unfold call. set (s0 := mkState off0 ind0 w0 [] []).
  destruct (call_repairs_with p rows s0 (fun _ _ => True) Hp HT Hfit)
    as (s' & Hrun & Hrep & _ & Hshape); [done|done|].
  exists s'. split; [done|].
  pose proof (batch_size_shape rows s0 s' Hshape) as HB.
  assert (Hsafe : safety_invariant rows (offsets s') (indices s')).
  { split.
    - intros t b Ht Hb. rewrite HB in *.
      by apply (repaired_final_chain rows s0 s' t b).
    - intros t b first last num_rows i idx (Ht & Hb & H1 & H2) Hrows Hi Hidx Hne.
      rewrite HB in *.
      pose proof (segment_index_bound _ _ _ _ Ht Hb) as [Hk0 Hk1].
      replace (Z.max 0 (batch_size rows (offsets s0)))
        with (batch_size rows (offsets s0)) in Hrep by lia.
      destruct (rep_inside _ _ _ _ Hrep t b first last num_rows i idx
                  Ht Hb ltac:(lia) Hrows H1 H2 Hi Hidx) as (v0 & _ & Hv).
      assert (0 < num_rows).
      { unfold lookupZ in Hrows. destruct (t <? 0); [done|].
        by apply (proj1 (Forall_lookup _ rows) Hpos (Z.to_nat t)). }
      revert Hv. unfold repair_idx, is_bad, index_invalid. rewrite Z.geb_leb.
      destruct (Z.eqb_spec v0 (-1)), (Z.ltb_spec v0 0),
        (Z.leb_spec num_rows v0); simpl; lia. }
  split; [done|]. intros p2 w2.
  assert (Hfit' : sizes_fit rows (offsets s') (indices s')).
  { destruct Hshape as [Ho Hi]. unfold sizes_fit in *.
    by rewrite (len_eq _ _ Ho), (len_eq _ _ Hi). }
  destruct (bounds_check_valid_noop p2 rows
              (mkState (offsets s') (indices s') w2 [] []) HT Hfit' Hsafe)
    as (s'' & Hrun2 & Hoff2 & Hind2 & Hw2 & Hlog2).
  exists s''. split_and!; try done. rewrite Hw2. by destruct p2.
Qed.

Lemma repaired_output_passes_validation_witness :
  WARNING <> FATAL /\ [3] <> [] /\ sizes_fit [3] [0; 7; 5] [1; 5; -1; 2; 9] /\
  Forall (fun num_rows => 0 < num_rows) [3] /\
  exists s',
    call [3] [1; 5; -1; 2; 9] [0; 7; 5] WARNING 0 = Ok tt s'
    /\ safety_invariant [3] (offsets s') (indices s')
    /\ forall p2 w2,
         exists s'',
           call [3] (indices s') (offsets s') p2 w2 = Ok tt s''
           /\ offsets s'' = offsets s' /\ indices s'' = indices s'
           /\ warning s'' = (if decide (p2 = WARNING) then 0 else w2)
           /\ log s'' = [].
Proof.
  split; [discriminate|]. split; [discriminate|]. split; [small_sizes|].
  split; [repeat constructor|].
  apply (repaired_output_passes_validation [3] [1; 5; -1; 2; 9] [0; 7; 5] 0
           WARNING); [discriminate|discriminate|small_sizes|repeat constructor].
Defined.

(** ** FATAL: where the call fails *)

Lemma segment_ok_valid rows off ind t b first last num_rows :
  lookupZ off (t * batch_size rows off + b) = Some first ->
  lookupZ off (t * batch_size rows off + b + 1) = Some last ->
  lookupZ rows t = Some num_rows ->
  segment_ok (len ind) num_rows ind first last ->
  segment_valid rows off ind t b.
Proof.
  intros H1 H2 Hrows [Hinv Hok]. apply segment_invalid_false in Hinv.
  exists first, last, num_rows. split_and!; try (done || lia).
  intros i idx Hi Hidx Hne. pose proof (Hok i idx Hi Hidx) as Hgood.
  apply is_bad_false in Hgood. lia.
Qed.

Lemma segment_invalid_true first last n :
  segment_invalid first last n = true ->
  first < 0 \/ first > last \/ last > n.
Proof.
  intros H. destruct (Z.lt_ge_cases first 0); [lia|].
  destruct (Z.lt_ge_cases last first); [lia|].
  destruct (Z.lt_ge_cases n last); [lia|].
  assert (segment_invalid first last n = false)
    by (apply segment_invalid_false; lia). congruence.
Qed.

Lemma segment_violation_at rows ind t first last num_rows :
  lookupZ rows t = Some num_rows ->
  segment_violation (len ind) num_rows ind first last ->
  violation_at rows ind t first last.
Proof.
  intros Hrows [Hinv|[Hinv (i & v & Hi & Hv & Hbad)]].
  - left. by apply segment_invalid_true.
  - right. apply segment_invalid_false in Hinv. apply is_bad_true in Hbad.
    split_and!; [lia|lia|lia|]. exists i, v, num_rows. split_and!; (done || lia).
Qed.

(** X8: on tensors whose sizes fit [int],
    a FATAL call that fails has failed at the first segment, in
    table-major order, that holds a violation: every segment before it is
    valid, and no offset of a later segment has been accessed. *)
Theorem fatal_fails_at_first_violation rows ind0 off0 w0 s' :
  sizes_fit rows off0 ind0 ->
  call rows ind0 off0 FATAL w0 = Throw s' ->
  exists t b first last,
    segment_of rows off0 t b first last
    /\ violation_at rows ind0 t first last
    /\ earlier_valid rows off0 ind0 t b
    /\ Forall (accessed_upto (len ind0) (t * batch_size rows off0 + b + 1))
         (trace s').
Proof.
  intros (HsT & Hso & Hsi) Hrun.
  assert (HT : rows <> []).
  { intros ->. discriminate Hrun. }
  unfold call in Hrun. set (s0 := mkState off0 ind0 w0 [] []) in *.
  set (B := batch_size rows off0).
  pose proof (bounds_check_wp FATAL rows s0
    (fun k s =>
       frame (accessed_upto (len ind0) k) s0 s
       /\ forall t b, 0 <= t < len rows -> 0 <= b < B -> t * B + b < k ->
            segment_valid rows off0 ind0 t b)
    (fun s =>
       exists t b first last,
         segment_of rows off0 t b first last
         /\ violation_at rows ind0 t first last
         /\ earlier_valid rows off0 ind0 t b
         /\ frame (accessed_upto (len ind0) (t * B + b + 1)) s0 s)
    HT HsT Hso) as H.
  rewrite Hrun in H. simpl in H.
  destruct H as (t & b & first & last & Hseg & Hv & Hearly & _ & tr & Htr & Hall).
  - split; [apply frame_refl|]. intros t b Ht Hb Hk.
    pose proof (segment_index_bound _ _ _ _ Ht Hb). lia.
  - change (batch_size rows (offsets s0)) with B.
    change (len (indices s0)) with (len ind0).
    intros t b num_rows s Ht Hb Hrows [Hfr Hok].
    pose proof Hfr as [(Hoff & Hind & _) _].
    destruct (segment_offsets_exist rows s0 s t b HT) as (first & last & H1 & H2);
      [by split; congruence|done|done|].
    change (batch_size rows (offsets s0)) with B in H1, H2.
    assert (Hfit : position_fits t B b) by (by apply segment_position_fits).
    assert (Hn : len (indices s) <= INT_MAX).
    { rewrite Hind. change (indices s0) with ind0. unfold INT_MAX. lia. }
    pose proof (process_segment_fatal num_rows t B b s first last Hfit Hn H1 H2)
      as Hwp.
    rewrite Hind in Hwp. rewrite Hoff in H1, H2.
    change (offsets s0) with off0 in H1, H2.
    change (indices s0) with ind0 in Hwp.
    assert (Hacc : forall a, segment_access (len ind0) (t * B + b) a ->
                     accessed_upto (len ind0) (t * B + b + 1) a).
    { pose proof (segment_index_bound _ _ _ _ Ht Hb) as [Hk0 _].
      intros a [->|[->|(i & -> & Hi)]]; simpl; lia. }
    assert (Hfr1 : frame (accessed_upto (len ind0) (t * B + b + 1)) s0 s).
    { eapply frame_mono; [|exact Hfr]. intros [[] pos]; simpl; lia. }
    eapply wp_mono; [exact Hwp| |]; cbn beta.
    + intros _ s2 [Hfr2 Hseg]. split.
      * apply frame_trans with s; [done|]. by eapply frame_mono.
      * intros t' b' Ht' Hb' Hk.
        destruct (Z.eq_dec (t' * B + b') (t * B + b)) as [Heq|Hne].
        -- apply segment_index_inj in Heq as [-> ->]; [|done|done].
           by apply (segment_ok_valid rows off0 ind0 t b first last num_rows).
        -- apply Hok; (done || lia).
    + intros s2 [Hfr2 Hbad]. exists t, b, first, last. split_and!.
      * unfold segment_of. fold B. split_and!; (done || lia).
      * by apply (segment_violation_at rows ind0 t first last num_rows).
      * intros t' b' Ht' Hb' Hk. by apply Hok.
      * apply frame_trans with s; [done|]. by eapply frame_mono.
  - exists t, b, first, last. split_and!; try done.
    rewrite Htr. simpl. by rewrite app_nil_r.
Qed.

Lemma fatal_fails_at_first_violation_witness :
  sizes_fit [3] [0; 2; 5] [1; 5; -1; 2; 9] /\
  exists s',
    call [3] [1; 5; -1; 2; 9] [0; 2; 5] FATAL 0 = Throw s'
    /\ exists t b first last,
         segment_of [3] [0; 2; 5] t b first last
         /\ violation_at [3] [1; 5; -1; 2; 9] t first last
         /\ earlier_valid [3] [0; 2; 5] [1; 5; -1; 2; 9] t b
         /\ Forall (accessed_upto (len [1; 5; -1; 2; 9])
                      (t * batch_size [3] [0; 2; 5] + b + 1)) (trace s').
Proof.
  split; [small_sizes|]. eexists. split; [vm_compute; reflexivity|].
  apply (fatal_fails_at_first_violation [3] [1; 5; -1; 2; 9] [0; 2; 5] 0).
  - small_sizes.
  - vm_compute. reflexivity.
Defined.

(** ** WARNING: what the diagnostic says *)

Lemma check_index_warning_log num_rows t b first l s s2 v :
  lookupZ (indices s) (first + l) = Some v ->
  check_index (mode_value WARNING) num_rows t b first l s = Ok tt s2 ->
  log s2 = if is_bad num_rows v && (warning s =? 0)
           then IndexOutOfBounds b t l v num_rows :: log s
           else log s.
Proof.
  intros Hv. unfold check_index, is_bad. run. rewrite Hv.
  destruct (Z.eqb_spec v (-1)) as [->|Hne]; simpl; [by intros [= <-]|].
  unfold is_mode; simpl.
  destruct (index_invalid v num_rows); simpl; [|by intros [= <-]].
  destruct (warning s =? 0); simpl; rewrite Hv; by intros [= <-].
Qed.

Lemma check_segment_warning_log n t B b s first last r s1 :
  lookupZ (offsets s) (t * B + b) = Some first ->
  lookupZ (offsets s) (t * B + b + 1) = Some last ->
  check_segment (mode_value WARNING) n t B b s = Ok r s1 ->
  log s1 = if segment_invalid first last n && (warning s =? 0)
           then SegmentOutOfBounds b t first last n :: log s
           else log s.
Proof.
  intros Hfirst Hlast Hrun.
  destruct (check_segment_Ok _ _ _ _ _ _ _ _ Hrun) as [Hfit _].
  revert Hrun.
  pose proof (lookupZ_Some_range _ _ _ Hfirst) as Hk.
  assert (Hlast' : forall x,
            lookupZ (insertZ (t * B + b) x (offsets s)) (t * B + b + 1)
            = Some last).
  { intros x. rewrite lookupZ_insertZ by done.
    destruct (Z.eqb_spec (t * B + b + 1) (t * B + b)); [lia|done]. }
  unfold check_segment. positions_fit Hfit.
  run. rewrite Hfirst. simpl. next_position_fits Hfit. rewrite Hlast.
  unfold is_mode; simpl.
  destruct (segment_invalid first last n); simpl; [|by intros [= _ <-]].
  destruct (warning s =? 0); simpl; rewrite Hfirst; simpl; rewrite Hlast';
    simpl; by intros [= _ <-].
Qed.

(** The element loop under WARNING logs the first rejected entry of the
    segment when the counter is still zero, and nothing otherwise. *)
Lemma check_elements_warning_log num_rows t b first last s :
  len (indices s) <= INT_MAX ->
  0 <= first -> first <= last <= len (indices s) -> 0 <= warning s ->
  exists s2,
    for_loop (last - first)
      (check_index (mode_value WARNING) num_rows t b first) s = Ok tt s2
    /\ (0 < warning s -> log s2 = log s)
    /\ (warning s = 0 ->
        (elements_ok num_rows (indices s) first last /\ log s2 = log s)
        \/ (exists l idx,
              0 <= l < last - first
              /\ lookupZ (indices s) (first + l) = Some idx
              /\ is_bad num_rows idx = true
              /\ elements_ok num_rows (indices s) first (first + l)
              /\ log s2 = IndexOutOfBounds b t l idx num_rows :: log s)).
Proof.
  intros Hfit Hfirst Hlast Hw.
  pose proof (wp_for_loop
    (fun l s1 =>
       len (indices s1) = len (indices s)
       /\ (forall pos, first + l <= pos ->
             lookupZ (indices s1) pos = lookupZ (indices s) pos)
       /\ warning s <= warning s1
       /\ (0 < warning s -> log s1 = log s)
       /\ (warning s = 0 ->
           (warning s1 = 0
            /\ elements_ok num_rows (indices s) first (first + l)
            /\ log s1 = log s)
           \/ (0 < warning s1
               /\ exists l0 idx,
                    0 <= l0 < l
                    /\ lookupZ (indices s) (first + l0) = Some idx
                    /\ is_bad num_rows idx = true
                    /\ elements_ok num_rows (indices s) first (first + l0)
                    /\ log s1 = IndexOutOfBounds b t l0 idx num_rows :: log s)))
    (fun _ => False)
    (check_index (mode_value WARNING) num_rows t b first) (last - first) s
    ltac:(lia))
    as H.
  apply wp_Ok in H as ([] & s2 & Hrun & _ & _ & _ & Hpos & Hzero).
  - exists s2. split; [done|]. split; [done|]. intros Hz.
    replace (first + Z.max 0 (last - first)) with last in Hzero by lia.
    destruct (Hzero Hz) as [(_ & Hok & Hlog)|(_ & l0 & idx & Hl0 & H')];
      [by left|right].
    exists l0, idx. split; [lia|done].
  - split_and!; [done|done|lia|done|]. intros Hz. left.
    split_and!; [done| |done]. intros i v Hi. lia.
  - intros l s1 Hl (Hlen & Hsame & Hmono & Hpos & Hzero).
    destruct (lookupZ_in_range (indices s) (first + l)) as [v Hv]; [lia|].
    assert (Hv1 : lookupZ (indices s1) (first + l) = Some v)
      by (rewrite Hsame by lia; done).
    destruct (check_index_repairs WARNING num_rows t b first l s1 v
                ltac:(done) Hv1)
      as (s2 & Hrun & _ & Hind2 & Hw2 & _).
    pose proof (check_index_warning_log _ _ _ _ _ _ _ _ Hv1 Hrun) as Hlog2.
    rewrite Hrun. simpl. cbn [counted] in Hw2.
    assert (Hb01 : 0 <= Z.b2z (is_bad num_rows v) <= 1)
      by (destruct (is_bad num_rows v); simpl; lia).
    split_and!.
    + by rewrite Hind2, len_insertZ.
    + intros pos Hp. rewrite Hind2, lookupZ_insertZ by (rewrite Hlen; lia).
      destruct (Z.eqb_spec pos (first + l)); [lia|]. apply Hsame. lia.
    + lia.
    + intros Hp. rewrite Hlog2.
      destruct (Z.eqb_spec (warning s1) 0); [lia|].
      rewrite andb_false_r. by apply Hpos.
    + intros Hz.
      destruct (Hzero Hz) as [(Hz1 & Hok & Hlog1)|(Hp1 & l0 & idx & Hl0 & H')].
      * destruct (is_bad num_rows v) eqn:Hbad; simpl in Hw2, Hlog2.
        -- right. split; [lia|]. exists l, v. rewrite Hz1 in Hlog2.
           simpl in Hlog2. split_and!; (done || lia || congruence).
        -- left. split_and!; [lia| |congruence].
           intros i w Hi Hw'.
           destruct (Z.eq_dec i (first + l)) as [->|Hne]; [congruence|].
           apply (Hok i w); [lia|done].
      * right. split; [lia|]. exists l0, idx.
        destruct H' as (Hidx & Hbad & Hok & Hlog1).
        split_and!; try (done || lia).
        rewrite Hlog2. destruct (Z.eqb_spec (warning s1) 0); [lia|].
        by rewrite andb_false_r.
Qed.

(** One segment under WARNING: with the counter at zero, the diagnostic is
    that of the segment when it does not lie in the buffer, and that of its
    first rejected entry otherwise. *)
Lemma process_segment_warning_log num_rows t B b s first last :
  position_fits t B b -> len (indices s) <= INT_MAX ->
  lookupZ (offsets s) (t * B + b) = Some first ->
  lookupZ (offsets s) (t * B + b + 1) = Some last ->
  0 <= warning s ->
  exists s2,
    process_segment (mode_value WARNING) (len (indices s)) num_rows t B b s
    = Ok tt s2
    /\ (0 < warning s -> log s2 = log s)
    /\ (warning s = 0 ->
        (segment_invalid first last (len (indices s)) = true
         /\ log s2
            = SegmentOutOfBounds b t first last (len (indices s)) :: log s)
        \/ (segment_invalid first last (len (indices s)) = false
            /\ elements_ok num_rows (indices s) first last
            /\ log s2 = log s)
        \/ (segment_invalid first last (len (indices s)) = false
            /\ exists l idx,
                 0 <= l < last - first
                 /\ lookupZ (indices s) (first + l) = Some idx
                 /\ is_bad num_rows idx = true
                 /\ elements_ok num_rows (indices s) first (first + l)
                 /\ log s2 = IndexOutOfBounds b t l idx num_rows :: log s)).
Proof.
  intros Hfit Hn H1 H2 Hw. set (n := len (indices s)) in *.
  destruct (check_segment_repairs WARNING n t B b s first last
              ltac:(done) Hfit H1 H2)
    as (s1 & Hrun1 & _ & Hind1 & Hw1 & _).
  pose proof (check_segment_warning_log _ _ _ _ _ _ _ _ _ H1 H2 Hrun1) as Hlog1.
  pose proof (clamp_bounds first last n (len_nonneg _)) as (Hc0 & Hc1 & Hc2).
  cbn [counted] in Hw1.
  destruct (check_elements_warning_log num_rows t b
              (clamp_start first n) (clamp_end (clamp_start first n) last n) s1)
    as (s2 & Hrun2 & Hpos2 & Hzero2);
    [by rewrite Hind1|done|rewrite Hind1; fold n; lia
    |destruct (segment_invalid first last n); simpl in Hw1; lia|].
  exists s2. split.
  { unfold process_segment, mbind, M_bind. rewrite Hrun1. exact Hrun2. }
  split.
  - intros Hp. destruct (Z.eqb_spec (warning s) 0); [lia|].
    rewrite andb_false_r in Hlog1.
    rewrite Hpos2, Hlog1;
      [done|destruct (segment_invalid first last n); simpl in Hw1; lia].
  - intros Hz. rewrite Hz in Hlog1, Hw1. simpl in Hlog1.
    rewrite andb_true_r in Hlog1.
    destruct (segment_invalid first last n) eqn:Hinv; simpl in Hw1.
    + left. split; [done|]. rewrite Hpos2 by lia. done.
    + right. destruct (clamp_valid _ _ _ Hinv) as [Hs He].
      rewrite He, Hs, Hind1 in Hzero2.
      destruct (Hzero2 ltac:(lia)) as [[Hok Hlog2]|(l & idx & Hl & H')].
      * left. split; [done|]. split; [done|]. by rewrite Hlog2.
      * right. split; [done|]. exists l, idx.
        destruct H' as (Hidx & Hbad & Hok & Hlog2).
        split; [done|]. split; [done|]. split; [done|]. split; [done|].
        by rewrite Hlog2, Hlog1.
Qed.

(** The invariant rule for the repairing modes, with the run of each
    segment at hand. *)
Lemma call_repairs_run p rows s0 (X : Z -> state -> Prop) :
  repairing p -> rows <> [] ->
  sizes_fit rows (offsets s0) (indices s0) ->
  X 0 (entry p s0) ->
  (forall t b num_rows first last s s2,
     0 <= t < len rows -> 0 <= b < batch_size rows (offsets s0) ->
     lookupZ rows t = Some num_rows ->
     same_shape s0 s ->
     lookupZ (offsets s) (t * batch_size rows (offsets s0) + b) = Some first ->
     lookupZ (offsets s) (t * batch_size rows (offsets s0) + b + 1) = Some last ->
     repaired rows s0 (t * batch_size rows (offsets s0) + b) s ->
     X (t * batch_size rows (offsets s0) + b) s ->
     process_segment (mode_value p) (len (indices s)) num_rows t
       (batch_size rows (offsets s0)) b s = Ok tt s2 ->
     segment_post p (len (indices s0)) num_rows
       (t * batch_size rows (offsets s0) + b) first last s s2 ->
     X (t * batch_size rows (offsets s0) + b + 1) s2) ->
  exists s',
    bounds_check_indices_cpu rows (mode_value p) s0 = Ok tt s'
    /\ repaired rows s0 (len rows * Z.max 0 (batch_size rows (offsets s0))) s'
    /\ X (len rows * Z.max 0 (batch_size rows (offsets s0))) s'
    /\ same_shape s0 s'.
Proof.
  intros Hp HT (HsT & Hso & Hsi) H0 Hstep.
  pose proof (bounds_check_wp p rows s0
                (fun k s => repaired rows s0 k s /\ X k s /\ same_shape s0 s)
                (fun _ => False) HT HsT Hso) as H.
  apply wp_Ok in H as ([] & s' & Hrun & Hrep & HX & Hshape); [eauto| |].
  - split_and!; [apply repaired_entry|done|].
    unfold same_shape. by rewrite entry_offsets, entry_indices.
  - intros t b num_rows s Ht Hb Hrows (Hrep & HX & Hshape).
    destruct (segment_offsets_exist rows s0 s t b HT Hshape Ht Hb)
      as (first & last & Hfirst & Hlast).
    destruct (process_segment_repairs p num_rows t
                (batch_size rows (offsets s0)) b s first last Hp)
      as (s2 & Hrun & Hpost); [by apply segment_position_fits| |done|done|].
    { rewrite (len_eq _ _ (proj2 Hshape)). unfold INT_MAX. lia. }
    pose proof Hrun as Hrun'.
    rewrite (len_eq _ _ (proj2 Hshape)) in Hrun, Hpost.
    rewrite Hrun. simpl. split_and!.
    + by eapply (repaired_step rows s0 p _ s s2 t b).
    + by eapply Hstep.
    + by eapply segment_post_shape.
Qed.

Lemma quiet_earlier_valid rows s0 s t b :
  rows <> [] ->
  quiet rows s0 (t * batch_size rows (offsets s0) + b) s -> warning s = 0 ->
  earlier_valid rows (offsets s0) (indices s0) t b.
Proof.
  intros HT Hq Hz t' b' Ht' Hb' Hk. destruct (Hq Hz) as (_ & _ & Hsegs).
  destruct (segment_offsets_exist rows s0 s0 t' b' HT) as (f0 & l0 & H1 & H2);
    [done|done|done|].
  destruct (lookupZ_in_range rows t' Ht') as [num_rows Hrows].
  apply (segment_ok_valid _ _ _ _ _ f0 l0 num_rows); [done|done|done|].
  apply (Hsegs t' b'); [|done|done]. unfold segment_of. split_and!; (done || lia).
Qed.

(** X9: on tensors whose sizes fit [int],
    a WARNING call returns with the counter at zero, no diagnostic and
    an input that satisfies the safety invariant, or with a positive counter
    and one diagnostic, which describes the first violation of the input in
    processing order: the first segment that is not valid, with the offsets
    and the length it prints when the segment does not lie in [indices], and
    with the position, the value and the row count of its first rejected
    entry otherwise. *)
Theorem warning_diagnostic_names_first_violation rows ind0 off0 w0 :
  rows <> [] -> sizes_fit rows off0 ind0 ->
  exists s',
    call rows ind0 off0 WARNING w0 = Ok tt s'
    /\ ((warning s' = 0 /\ log s' = [] /\ safety_invariant rows off0 ind0)
        \/ (0 < warning s'
            /\ exists d, log s' = [d]
                 /\ names_first_violation rows off0 ind0 d)).
Proof.
  intros HT Hfit. unfold call. set (s0 := mkState off0 ind0 w0 [] []).
  destruct (call_repairs_run WARNING rows s0
              (fun k s =>
                 0 <= warning s
                 /\ quiet rows s0 k s
                 /\ (warning s = 0 -> log s = [])
                 /\ (0 < warning s ->
                     exists d, log s = [d]
                       /\ names_first_violation rows off0 ind0 d))
              ltac:(done) HT Hfit)
    as (s' & Hrun & _ & (Hw0 & Hq & Hl0 & Hd) & _).
  - simpl. split_and!; [done| |done|lia].
    intros _. split_and!; [done|done|].
    intros t b first last num_rows (Ht & Hb & _) Hk.
    pose proof (segment_index_bound _ _ _ _ Ht Hb). lia.
  - intros t b num_rows first last s s2 Ht Hb Hrows Hshape H1 H2 _
      (Hw0 & Hq & Hl0 & Hd) Hrun Hpost.
    pose proof (segment_post_counts _ _ _ _ _ _ _ _ Hpost) as Hmono.
    destruct (process_segment_warning_log num_rows t
                (batch_size rows (offsets s0)) b s first last)
      as (s2' & Hrun' & Hpos & Hzero); [|  |done|done|done|].
    { apply segment_position_fits; (done || apply Hfit). }
    { rewrite (len_eq _ _ (proj2 Hshape)). destruct Hfit as (_ & _ & Hsi).
      simpl. unfold INT_MAX. lia. }
    rewrite Hrun in Hrun'. injection Hrun' as <-.
    rewrite (len_eq _ _ (proj2 Hshape)) in Hzero.
    split_and!.
    + lia.
    + by eapply quiet_step.
    + intros Hz2. assert (Hz : warning s = 0) by lia.
      assert (Hok : segment_ok (len (indices s0)) num_rows (indices s)
                      first last)
        by (apply (segment_post_quiet _ _ _ _ _ _ _ Hpost); lia).
      destruct Hok as [Hinv Hok].
      destruct (Hzero Hz) as [[Hinv' _]|[(_ & _ & Hlog)|(_ & l & idx & Hl & Hidx
                                                        & Hbad & _)]].
      * congruence.
      * rewrite Hlog. by apply Hl0.
      * rewrite (Hok (first + l) idx) in Hbad by (lia || done). done.
    + intros Hp2. destruct (Z.eq_dec (warning s) 0) as [Hz|Hnz].
      * destruct (Hq Hz) as (Hoff & Hind & _).
        pose proof (quiet_earlier_valid rows s0 s t b HT Hq Hz) as Hearly.
        rewrite Hoff in H1, H2. rewrite Hind in Hzero.
        change (offsets s0) with off0 in *. change (indices s0) with ind0 in *.
        assert (Hseg : segment_of rows off0 t b first last)
          by (unfold segment_of; split_and!; (done || lia)).
        destruct (Hzero Hz) as [[Hinv Hlog]|[(Hinv & Hok & Hlog)|(Hinv & l & idx
                                     & Hl & Hidx & Hbad & Hok & Hlog)]].
        -- exists (SegmentOutOfBounds b t first last (len ind0)).
           rewrite Hlog, (Hl0 Hz). split; [done|]. simpl.
           split_and!; try done. by apply segment_invalid_true.
        -- exfalso.
           assert (H1s : lookupZ (offsets s) (t * batch_size rows off0 + b)
                         = Some first) by (by rewrite Hoff).
           assert (H2s : lookupZ (offsets s) (t * batch_size rows off0 + b + 1)
                         = Some last) by (by rewrite Hoff).
           assert (Hsok : segment_ok (len ind0) num_rows (indices s)
                            first last) by (split; [done|by rewrite Hind]).
           destruct (segment_post_ok _ _ _ _ _ _ _ _ H1s H2s Hsok Hpost)
             as (_ & _ & Hsame). lia.
        -- exists (IndexOutOfBounds b t l idx num_rows).
           rewrite Hlog, (Hl0 Hz). split; [done|]. simpl.
           exists first, last. apply segment_invalid_false in Hinv.
           apply is_bad_true in Hbad.
           split_and!; try (done || lia).
           intros l' idx' Hl' Hidx'. apply is_bad_false.
           apply (Hok (first + l') idx'); [lia|done].
      * rewrite Hpos by lia. apply Hd. lia.
  - exists s'. split; [done|].
    destruct (Z.eq_dec (warning s') 0) as [Hz|Hnz]; [left|right].
    + split_and!; [done|by apply Hl0|].
      destruct (Hq Hz) as (_ & _ & Hsegs).
      apply segments_ok_safe; [done|].
      intros t b first last num_rows Hseg Hrows.
      apply (Hsegs t b first last num_rows Hseg); [|done].
      destruct Hseg as (Ht & Hb & _). change (offsets s0) with off0.
      pose proof (segment_index_bound _ _ _ _ Ht Hb). lia.
    + split; [lia|]. apply Hd. lia.
Qed.

Lemma warning_diagnostic_names_first_violation_witness :
  [3] <> [] /\ sizes_fit [3] [0; 2; 5] [1; 5; -1; 2; 9] /\
  exists s',
    call [3] [1; 5; -1; 2; 9] [0; 2; 5] WARNING 0 = Ok tt s'
    /\ ((warning s' = 0 /\ log s' = []
         /\ safety_invariant [3] [0; 2; 5] [1; 5; -1; 2; 9])
        \/ (0 < warning s'
            /\ exists d, log s' = [d]
                 /\ names_first_violation [3] [0; 2; 5] [1; 5; -1; 2; 9] d)).
Proof.
  split; [discriminate|]. split; [small_sizes|].
  apply (warning_diagnostic_names_first_violation [3] [1; 5; -1; 2; 9]
           [0; 2; 5] 0); [discriminate|small_sizes].
Defined.
